(** * NestedLink / valuelink hooks: a shallow embedding of [hooks.ts]

    The development follows [src/valuelink/src/hooks.ts].  The hooks run on
    top of a host UI runtime (state cells with an update queue, ref cells,
    effects with dependency lists and destroy functions) and of a few host
    services (promises, [localStorage], [JSON]).  The host is modelled first,
    as an explicit world threaded through a state-and-exception monad; the
    hooks of the source file are then written on top of it, one definition
    per source function, keeping the source's names. *)

From stdpp Require Import base gmap strings list.
From Stdlib Require Import ZArith Ascii String Lia.
From Stdlib Require DecimalString.

Set Warnings "-register-all".

Local Open Scope Z_scope.
Local Open Scope string_scope.

(** ** JavaScript values and the object heap *)

Module JS.

Definition loc := nat.

(** Primitive values are immediate, objects and arrays live in the heap
    and are compared by reference.  Numbers are the integers (the counter
    of [useIO] and the payloads used below are integers, which doubles
    represent exactly). *)
Inductive val :=
| VUndefined
| VNull
| VBool (b : bool)
| VNum (n : Z)
| VStr (s : string)
| VRef (l : loc).
Arguments VRef l%_nat.

#[global] Instance val_eq_dec : EqDecision val.
Proof. solve_decision. Defined.

(** Own enumerable properties in insertion order, or array items. *)
Inductive obj :=
| OObject (props : list (string * val))
| OArray (items : list val).

Abbreviation heap := (gmap loc obj).

Inductive exn :=
| SyntaxError
| RangeError
| TypeError
| Unmodelled
| Thrown (v : val).

#[global] Instance exn_eq_dec : EqDecision exn.
Proof. solve_decision. Defined.

(** [x === void 0] *)
Definition is_undefined (v : val) : bool :=
  match v with VUndefined => true | _ => false end.

(** ToBoolean *)
Definition truthy (v : val) : bool :=
  match v with
  | VUndefined | VNull => false
  | VBool b => b
  | VNum n => negb (Z.eqb n 0)
  | VStr s => negb (String.eqb s EmptyString)
  | VRef _ => true
  end.

(** [Object.is] on the modelled values (no NaN, no negative zero). *)
Definition same_value (a b : val) : bool := bool_decide (a = b).

(** ToNumber where the result is an integer; [None] for operands outside
    the modelled fragment. *)
Definition to_number (v : val) : option Z :=
  match v with
  | VNum n => Some n
  | VNull => Some 0
  | VBool b => Some (if b then 1 else 0)
  | _ => None
  end.

End JS.
Export JS.

(** ** State and exceptions *)

Inductive res (S A : Type) :=
| Ok (a : A) (s : S)
| Throw (e : exn) (s : S).
Arguments Ok {S A} a s.
Arguments Throw {S A} e s.

Definition M (S A : Type) : Type := S -> res S A.

Definition ret {S A} (a : A) : M S A := fun s => Ok a s.

Definition bind {S A B} (m : M S A) (k : A -> M S B) : M S B :=
  fun s => match m s with
           | Ok a s' => k a s'
           | Throw e s' => Throw e s'
           end.

Definition throw {S A} (e : exn) : M S A := fun s => Throw e s.
Definition get {S} : M S S := fun s => Ok s s.
Definition gets {S A} (f : S -> A) : M S A := fun s => Ok (f s) s.
Definition put {S} (s : S) : M S unit := fun _ => Ok tt s.
Definition modify {S} (f : S -> S) : M S unit := fun s => Ok tt (f s).

Declare Scope js_scope.
Delimit Scope js_scope with js.
Notation "'let*' x := m 'in' k" := (bind m (fun x => k))
  (at level 10, x pattern, m at level 100, k at level 200) : js_scope.
Notation "m >>> k" := (bind m (fun _ => k))
  (at level 100, k at level 200, right associativity) : js_scope.
Local Open Scope js_scope.

Fixpoint mapM {S A B} (f : A -> M S B) (l : list A) : M S (list B) :=
  match l with
  | [] => ret []
  | a :: l' => let* b := f a in let* bs := mapM f l' in ret (b :: bs)
  end.

Fixpoint forM_ {S A} (l : list A) (f : A -> M S unit) : M S unit :=
  match l with
  | [] => ret tt
  | a :: l' => f a >>> forM_ l' f
  end.

(** ** Heap operations *)

Definition alloc (o : obj) : M heap val :=
  fun h => let l := fresh (dom h) in Ok (VRef l) (<[l := o]> h).

Definition load (l : loc) : M heap obj :=
  fun h => match h !! l with
           | Some o => Ok o h
           | None => Throw TypeError h
           end.

Definition store (l : loc) (o : obj) : M heap unit :=
  fun h => Ok tt (<[l := o]> h).

(** Property assignment [o.k = v] on an association list: an existing own
    property keeps its position, a new one is appended. *)
Fixpoint set_prop (k : string) (v : val) (props : list (string * val))
  : list (string * val) :=
  match props with
  | [] => [(k, v)]
  | (k', v') :: rest =>
      if String.eqb k k' then (k, v) :: rest else (k', v') :: set_prop k v rest
  end.

Fixpoint get_prop (k : string) (props : list (string * val)) : val :=
  match props with
  | [] => VUndefined
  | (k', v') :: rest => if String.eqb k k' then v' else get_prop k rest
  end.

Fixpoint has_prop (k : string) (props : list (string * val)) : bool :=
  match props with
  | [] => false
  | (k', _) :: rest => if String.eqb k k' then true else has_prop k rest
  end.

(** Modelled from the spec: [helpers( x ).clone( x )] of [./helpers], which
    is not part of the sources at hand.  The spec calls it "a deep-clone-by-value
    operation used by update": primitives are returned as they are, an
    object or array is copied into a freshly allocated one whose members are
    cloned in turn.  The recursion depth is bounded by [fuel]; running out of
    it is the engine's stack overflow on a cyclic structure. *)
Fixpoint clone_deep (fuel : nat) (v : val) : M heap val :=
  match v with
  | VRef l =>
      match fuel with
      | O => throw RangeError
      | S n =>
          let* o := load l in
          match o with
          | OObject props =>
              let* props' :=
                mapM (fun kv => let* x := clone_deep n (snd kv) in
                                ret (fst kv, x)) props in
              alloc (OObject props')
          | OArray items =>
              let* items' := mapM (clone_deep n) items in
              alloc (OArray items')
          end
      end
  | _ => ret v
  end.

Definition clone (x : val) : M heap val :=
  fun h => clone_deep (S (size h)) x h.

(** ** The host's [JSON] object

    [JSON.parse] is a recursive-descent reader of the JSON grammar.  Number
    literals with a fraction or an exponent and [\u] escapes are recognised
    but lie outside the integer and 8-bit string model ([Unmodelled]).  The
    depth counter [fuel] is consumed once per nesting step and is chosen
    larger than the text, so that a [SyntaxError] is a verdict on the text. *)

Module JSON.

Inductive json :=
| JNull
| JBool (b : bool)
| JNum (n : Z)
| JStr (s : string)
| JArr (items : list json)
| JObj (members : list (string * json)).

Definition parsed (A : Type) : Type := (exn + A * string)%type.

Definition is_ws (c : ascii) : bool :=
  let n := nat_of_ascii c in
  (n =? 32)%nat || (n =? 9)%nat || (n =? 10)%nat || (n =? 13)%nat.

Fixpoint skip_ws (s : string) : string :=
  match s with
  | String c s' => if is_ws c then skip_ws s' else s
  | EmptyString => s
  end.

Definition digit_of (c : ascii) : option Z :=
  let n := nat_of_ascii c in
  if ((48 <=? n)%nat && (n <=? 57)%nat)%bool
  then Some (Z.of_nat (n - 48)) else None.

Definition is_hex (c : ascii) : bool :=
  let n := nat_of_ascii c in
  ((48 <=? n)%nat && (n <=? 57)%nat) || ((65 <=? n)%nat && (n <=? 70)%nat)
  || ((97 <=? n)%nat && (n <=? 102)%nat).

(** Reads a literal keyword such as [null]. *)
Fixpoint expect (kw s : string) : option string :=
  match kw, s with
  | EmptyString, _ => Some s
  | String a kw', String b s' => if Ascii.eqb a b then expect kw' s' else None
  | String _ _, EmptyString => None
  end.

(** The characters after the opening quote, up to the closing one. *)
Fixpoint parse_chars (s : string) : parsed string :=
  match s with
  | EmptyString => inl SyntaxError
  | String c s' =>
      if Ascii.eqb c "034" then inr (EmptyString, s')
      else if Ascii.eqb c "\" then
        match s' with
        | String e s'' =>
            let continue (d : ascii) :=
              match parse_chars s'' with
              | inr (str, rest) => inr (String d str, rest)
              | inl err => inl err
              end in
            if Ascii.eqb e "034" then continue "034"%char
            else if Ascii.eqb e "\" then continue "\"%char
            else if Ascii.eqb e "/" then continue "/"%char
            else if Ascii.eqb e "b" then continue (ascii_of_nat 8)
            else if Ascii.eqb e "f" then continue (ascii_of_nat 12)
            else if Ascii.eqb e "n" then continue (ascii_of_nat 10)
            else if Ascii.eqb e "r" then continue (ascii_of_nat 13)
            else if Ascii.eqb e "t" then continue (ascii_of_nat 9)
            else if Ascii.eqb e "u" then
              match s'' with
              | String h1 (String h2 (String h3 (String h4 _))) =>
                  if is_hex h1 && is_hex h2 && is_hex h3 && is_hex h4
                  then inl Unmodelled else inl SyntaxError
              | _ => inl SyntaxError
              end
            else inl SyntaxError
        | EmptyString => inl SyntaxError
        end
      else if (nat_of_ascii c <? 32)%nat then inl SyntaxError
      else match parse_chars s' with
           | inr (str, rest) => inr (String c str, rest)
           | inl err => inl err
           end
  end.

(** A non-empty run of digits, most significant first. *)
Fixpoint parse_digits (acc : Z) (s : string) : Z * string :=
  match s with
  | String c s' =>
      match digit_of c with
      | Some d => parse_digits (10 * acc + d) s'
      | None => (acc, s)
      end
  | EmptyString => (acc, s)
  end.

Definition starts_with_digit (s : string) : bool :=
  match s with
  | String c _ => match digit_of c with Some _ => true | None => false end
  | EmptyString => false
  end.

(** What follows the integer part: nothing of the number, or a fraction
    and an exponent, which must be well formed. *)
Definition parse_number_tail (n : Z) (s : string) : parsed json :=
  let after_frac :=
    match s with
    | String "."%char s' =>
        if starts_with_digit s' then Some (true, snd (parse_digits 0 s'))
        else None
    | _ => Some (false, s)
    end in
  match after_frac with
  | None => inl SyntaxError
  | Some (frac, s1) =>
      let exponent (s2 : string) :=
        let s3 := match s2 with
                  | String "+"%char r | String "-"%char r => r
                  | _ => s2
                  end in
        if starts_with_digit s3 then inl Unmodelled else inl SyntaxError in
      match s1 with
      | String "e"%char s2 | String "E"%char s2 => exponent s2
      | _ => if frac then inl Unmodelled else inr (JNum n, s1)
      end
  end.

Definition parse_unsigned (s : string) : parsed Z :=
  match s with
  | String "0"%char s' => inr (0, s')
  | _ => if starts_with_digit s then inr (parse_digits 0 s)
         else inl SyntaxError
  end.

Definition parse_number (s : string) : parsed json :=
  match s with
  | String "-"%char s' =>
      match parse_unsigned s' with
      | inr (n, rest) => parse_number_tail (- n) rest
      | inl err => inl err
      end
  | _ =>
      match parse_unsigned s with
      | inr (n, rest) => parse_number_tail n rest
      | inl err => inl err
      end
  end.

Fixpoint parse_value (fuel : nat) (s : string) : parsed json :=
  match fuel with
  | O => inl RangeError
  | S fuel' =>
      match skip_ws s with
      | String "n"%char _ =>
          match expect "null" (skip_ws s) with
          | Some rest => inr (JNull, rest) | None => inl SyntaxError
          end
      | String "t"%char _ =>
          match expect "true" (skip_ws s) with
          | Some rest => inr (JBool true, rest) | None => inl SyntaxError
          end
      | String "f"%char _ =>
          match expect "false" (skip_ws s) with
          | Some rest => inr (JBool false, rest) | None => inl SyntaxError
          end
      | String "034"%char s' =>
          match parse_chars s' with
          | inr (str, rest) => inr (JStr str, rest)
          | inl err => inl err
          end
      | String "["%char s' =>
          match skip_ws s' with
          | String "]"%char rest => inr (JArr [], rest)
          | _ => match parse_elements fuel' s' with
                 | inr (items, rest) => inr (JArr items, rest)
                 | inl err => inl err
                 end
          end
      | String "{"%char s' =>
          match skip_ws s' with
          | String "}"%char rest => inr (JObj [], rest)
          | _ => match parse_members fuel' s' with
                 | inr (members, rest) => inr (JObj members, rest)
                 | inl err => inl err
                 end
          end
      | _ => parse_number (skip_ws s)
      end
  end

with parse_elements (fuel : nat) (s : string) : parsed (list json) :=
  match fuel with
  | O => inl RangeError
  | S fuel' =>
      match parse_value fuel' s with
      | inl err => inl err
      | inr (v, rest) =>
          match skip_ws rest with
          | String ","%char rest' =>
              match parse_elements fuel' rest' with
              | inr (vs, rest'') => inr (v :: vs, rest'')
              | inl err => inl err
              end
          | String "]"%char rest' => inr ([v], rest')
          | _ => inl SyntaxError
          end
      end
  end

with parse_members (fuel : nat) (s : string) : parsed (list (string * json)) :=
  match fuel with
  | O => inl RangeError
  | S fuel' =>
      match skip_ws s with
      | String "034"%char s' =>
          match parse_chars s' with
          | inl err => inl err
          | inr (key, rest) =>
              match skip_ws rest with
              | String ":"%char rest' =>
                  match parse_value fuel' rest' with
                  | inl err => inl err
                  | inr (v, rest'') =>
                      match skip_ws rest'' with
                      | String ","%char r =>
                          match parse_members fuel' r with
                          | inr (ms, r') => inr ((key, v) :: ms, r')
                          | inl err => inl err
                          end
                      | String "}"%char r => inr ([(key, v)], r)
                      | _ => inl SyntaxError
                      end
                  end
              | _ => inl SyntaxError
              end
          end
      | _ => inl SyntaxError
      end
  end.

(** The whole text must be one value, surrounded by white space only. *)
Definition parse_text (text : string) : exn + json :=
  match parse_value (2 * String.length text + 2) text with
  | inl err => inl err
  | inr (v, rest) =>
      match skip_ws rest with
      | EmptyString => inr v
      | _ => inl SyntaxError
      end
  end.

(** The parsed tree is built in the heap, members first. *)
Fixpoint reify (j : json) : M heap val :=
  match j with
  | JNull => ret VNull
  | JBool b => ret (VBool b)
  | JNum n => ret (VNum n)
  | JStr s => ret (VStr s)
  | JArr items =>
      let* vs := (fix go (l : list json) : M heap (list val) :=
                    match l with
                    | [] => ret []
                    | x :: l' => let* v := reify x in
                                 let* vs := go l' in ret (v :: vs)
                    end) items in
      alloc (OArray vs)
  | JObj members =>
      let* ps := (fix go (l : list (string * json))
                    (acc : list (string * val))
                    : M heap (list (string * val)) :=
                    match l with
                    | [] => ret acc
                    | (k, x) :: l' => let* v := reify x in
                                      go l' (set_prop k v acc)
                    end) members [] in
      alloc (OObject ps)
  end.

(** [JSON.parse( text )] *)
Definition parse (text : string) : M heap val :=
  match parse_text text with
  | inl err => throw err
  | inr j => reify j
  end.

Definition hex_digit (n : nat) : ascii :=
  ascii_of_nat (if (n <? 10)%nat then 48 + n else 87 + n).

Fixpoint escape (s : string) : string :=
  match s with
  | EmptyString => EmptyString
  | String c s' =>
      let n := nat_of_ascii c in
      let two (e : ascii) := String "\" (String e (escape s')) in
      if Ascii.eqb c "034" then two "034"%char
      else if Ascii.eqb c "\" then two "\"%char
      else if (n =? 8)%nat then two "b"%char
      else if (n =? 12)%nat then two "f"%char
      else if (n =? 10)%nat then two "n"%char
      else if (n =? 13)%nat then two "r"%char
      else if (n =? 9)%nat then two "t"%char
      else if (n <? 32)%nat then
        "\u00" ++ String (hex_digit (n / 16))
                         (String (hex_digit (n mod 16)) (escape s'))
      else String c (escape s')
  end.

Definition quote (s : string) : string :=
  String "034" (escape s ++ String "034" EmptyString).

Definition number_to_string (n : Z) : string :=
  DecimalString.NilZero.string_of_int (Z.to_int n).

Definition join (parts : list string) : string :=
  match parts with
  | [] => EmptyString
  | p :: ps => fold_left (fun acc q => acc ++ "," ++ q) ps p
  end.

(** [JSON.stringify( v )]: [inr None] is the [undefined] it returns for a
    value with no JSON form; a cycle is a [TypeError].  An [undefined]
    array item is written [null], an [undefined] property is left out. *)
Fixpoint stringify_val (fuel : nat) (h : heap) (v : val)
  : exn + option string :=
  match v with
  | VUndefined => inr None
  | VNull => inr (Some "null")
  | VBool b => inr (Some (if b then "true" else "false"))
  | VNum n => inr (Some (number_to_string n))
  | VStr s => inr (Some (quote s))
  | VRef l =>
      match fuel with
      | O => inl TypeError
      | S fuel' =>
          match h !! l with
          | None => inl TypeError
          | Some (OArray items) =>
              let step (x : val) (acc : exn + list string) :=
                match acc, stringify_val fuel' h x with
                | inl e, _ => inl e
                | _, inl e => inl e
                | inr parts, inr (Some t) => inr (t :: parts)
                | inr parts, inr None => inr ("null" :: parts)
                end in
              match foldr step (inr []) items with
              | inl e => inl e
              | inr parts => inr (Some ("[" ++ join parts ++ "]"))
              end
          | Some (OObject props) =>
              let step (kv : string * val) (acc : exn + list string) :=
                match acc, stringify_val fuel' h (snd kv) with
                | inl e, _ => inl e
                | _, inl e => inl e
                | inr parts, inr (Some t) =>
                    inr ((quote (fst kv) ++ ":" ++ t) :: parts)
                | inr parts, inr None => inr parts
                end in
              match foldr step (inr []) props with
              | inl e => inl e
              | inr parts => inr (Some ("{" ++ join parts ++ "}"))
              end
          end
      end
  end.

Definition stringify (v : val) : M heap (option string) :=
  fun h => match stringify_val (S (size h)) h v with
           | inl e => Throw e h
           | inr r => Ok r h
           end.

End JSON.

(** ** The host UI runtime

    One component instance (a fiber) is modelled: its hook slots in call
    order, the hook cursor of the render in progress, the effects that the
    render scheduled, and whether the instance is still mounted.  Closures
    that the hooks hand over to the host (updaters, effects, destroy
    functions, promise reactions) are kept in the world, so the closures of
    [hooks.ts] that touch the world are represented by name ([closure],
    [setter]) and given their bodies by [run_closure] and [call_setter];
    updaters only touch the heap and stay functions. *)

(** The argument of a state setter: a value, or a function of the previous
    state.  State values are data; a state that is itself a function is
    outside the model. *)
Inductive setarg :=
| SetValue (v : val)
| SetFn (f : val -> M heap val).

(** The two [set] functions that [hooks.ts] passes to [new UseStateLink]. *)
Inductive setter :=
| StateSetter (cell : nat)
    (* [set] of [const [ value, set ] = useState( ... )] *)
| MountedGuard (isMounted : nat) (set : setter).
    (* [x => isMounted.current && set( x )] *)

(** [class Link<T>]: the value and the [set] capability.  [UseStateLink]
    adds no field; its constructor stores [set]. *)
Record Link := { value : val; set : setter }.

Definition UseStateLink (value : val) (set : setter) : Link :=
  {| value := value; set := set |}.

Definition LinksHash : Type := list (string * Link).

(** The content of a ref cell: a value, or the links object that
    [useLocalStorage] keeps. *)
Inductive refval :=
| RVal (v : val)
| RLinks (links : LinksHash).

(** [fun : () => Promise<any>], known by a label only: calling it starts an
    operation whose promise the environment settles later. *)
Definition async_fn := nat.

Inductive closure :=
| ClearMounted (isMounted : nat)
    (* [() => isMounted.current = false] *)
| WatchMounted (isMounted : nat)
    (* [() => ( () => isMounted.current = false )] *)
| SyncLink (link : Link) (value : val)
    (* [() => link.set( value )] *)
| LoadStorage (key : string) (stateRef : nat)
    (* the effect of [useLocalStorage] *)
| SaveStorage (key : string) (stateRef : nat)
    (* the destroy function it returns *)
| RunIO (fun_ : async_fn) (isReady : Link)
    (* the effect of [useIO] *)
| SettleIO (isReady : Link).
    (* [() => $isReady.set( x => x - 1 )] *)

Inductive slot :=
| StateSlot (state : val) (queue : list setarg)
| RefSlot (current : refval)
| EffectSlot (deps : option (list val)) (destroy : option closure).

Inductive outcome :=
| Fulfilled (v : val)
| Rejected (reason : exn).

(** A promise: who started it ([None] for a promise derived by [finally]),
    its outcome once settled, and the [finally] reactions registered on it,
    each with the promise that [finally] returned. *)
Record promise := {
  p_origin : option async_fn;
  p_settled : option outcome;
  p_reactions : list (closure * nat)
}.

Record world := {
  w_heap : heap;
  w_fiber : list slot;
  w_cursor : nat;
  w_scheduled : list (nat * closure);
  w_mounted : bool;
  w_promises : list promise;
  w_storage : gmap string string;
  w_warnings : nat
}.

Definition set_heap (h : heap) (w : world) : world :=
  match w with
  | Build_world h0 f0 c0 sch0 m0 pr0 sto0 wn0 =>
      Build_world h f0 c0 sch0 m0 pr0 sto0 wn0
  end.

Definition set_fiber (f : list slot) (w : world) : world :=
  match w with
  | Build_world h0 f0 c0 sch0 m0 pr0 sto0 wn0 =>
      Build_world h0 f c0 sch0 m0 pr0 sto0 wn0
  end.

Definition set_cursor (c : nat) (w : world) : world :=
  match w with
  | Build_world h0 f0 c0 sch0 m0 pr0 sto0 wn0 =>
      Build_world h0 f0 c sch0 m0 pr0 sto0 wn0
  end.

Definition set_scheduled (e : list (nat * closure)) (w : world) : world :=
  match w with
  | Build_world h0 f0 c0 sch0 m0 pr0 sto0 wn0 =>
      Build_world h0 f0 c0 e m0 pr0 sto0 wn0
  end.

Definition set_mounted (b : bool) (w : world) : world :=
  match w with
  | Build_world h0 f0 c0 sch0 m0 pr0 sto0 wn0 =>
      Build_world h0 f0 c0 sch0 b pr0 sto0 wn0
  end.

Definition set_promises (p : list promise) (w : world) : world :=
  match w with
  | Build_world h0 f0 c0 sch0 m0 pr0 sto0 wn0 =>
      Build_world h0 f0 c0 sch0 m0 p sto0 wn0
  end.

Definition set_storage (s : gmap string string) (w : world) : world :=
  match w with
  | Build_world h0 f0 c0 sch0 m0 pr0 sto0 wn0 =>
      Build_world h0 f0 c0 sch0 m0 pr0 s wn0
  end.

Definition set_warnings (n : nat) (w : world) : world :=
  match w with
  | Build_world h0 f0 c0 sch0 m0 pr0 sto0 wn0 =>
      Build_world h0 f0 c0 sch0 m0 pr0 sto0 n
  end.

(** A world in which the component is about to be rendered for the first
    time. *)
Definition fresh_world (h : heap) (storage : gmap string string) : world :=
  {| w_heap := h; w_fiber := []; w_cursor := O; w_scheduled := [];
     w_mounted := true; w_promises := []; w_storage := storage;
     w_warnings := O |}.

(** Runs a heap computation in the world. *)
Definition in_heap {A} (m : M heap A) : M world A :=
  fun w => match m (w_heap w) with
           | Ok a h => Ok a (set_heap h w)
           | Throw e h => Throw e (set_heap h w)
           end.

(** *** State cells *)

Definition apply_setarg (st : val) (x : setarg) : M heap val :=
  match x with
  | SetValue v => ret v
  | SetFn f => f st
  end.

(** The queued updates are applied in dispatch order, each to the result of
    the one before. *)
Fixpoint flush (st : val) (queue : list setarg) : M heap val :=
  match queue with
  | [] => ret st
  | x :: queue' => let* st' := apply_setarg st x in flush st' queue'
  end.

Definition next_hook : M world (nat * option slot) :=
  fun w => Ok (w_cursor w, w_fiber w !! w_cursor w)
              (set_cursor (S (w_cursor w)) w).

Definition push_slot (s : slot) : M world unit :=
  modify (fun w => set_fiber (w_fiber w ++ [s]) w).

Definition write_slot (i : nat) (s : slot) : M world unit :=
  modify (fun w => set_fiber (<[i := s]> (w_fiber w)) w).

(** [useState( initialState )]: on the first render the cell is created;
    on a later render the queued updates are applied first. *)
Definition useState (initialState : val) : M world (val * setter) :=
  let* (i, s) := next_hook in
  match s with
  | None =>
      push_slot (StateSlot initialState []) >>>
      ret (initialState, StateSetter i)
  | Some (StateSlot st queue) =>
      let* st' := in_heap (flush st queue) in
      write_slot i (StateSlot st' []) >>>
      ret (st', StateSetter i)
  | Some _ => throw TypeError
  end.

(** The host's state setter: the update is queued (and a render requested)
    while the instance is mounted; on an unmounted instance nothing is
    queued and the host reports a warning. *)
Definition dispatch_set_state (cell : nat) (x : setarg) : M world unit :=
  fun w =>
    if w_mounted w then
      match w_fiber w !! cell with
      | Some (StateSlot st queue) =>
          Ok tt (set_fiber (<[cell := StateSlot st (queue ++ [x])]> (w_fiber w)) w)
      | _ => Throw TypeError w
      end
    else Ok tt (set_warnings (S (w_warnings w)) w).

(** *** Ref cells *)

Definition useRef (initialValue : refval) : M world nat :=
  let* (i, s) := next_hook in
  match s with
  | None => push_slot (RefSlot initialValue) >>> ret i
  | Some (RefSlot _) => ret i
  | Some _ => throw TypeError
  end.

Definition read_ref (r : nat) : M world refval :=
  fun w => match w_fiber w !! r with
           | Some (RefSlot cur) => Ok cur w
           | _ => Throw TypeError w
           end.

Definition write_ref (r : nat) (x : refval) : M world unit :=
  fun w => match w_fiber w !! r with
           | Some (RefSlot _) => Ok tt (set_fiber (<[r := RefSlot x]> (w_fiber w)) w)
           | _ => Throw TypeError w
           end.

(** *** Effects *)

(** The host compares dependency lists item by item with [Object.is], over
    their common length. *)
Fixpoint are_hook_inputs_equal (next prev : list val) : bool :=
  match next, prev with
  | n :: next', p :: prev' => same_value n p && are_hook_inputs_equal next' prev'
  | _, _ => true
  end.

Definition deps_changed (next prev : option (list val)) : bool :=
  match next, prev with
  | Some n, Some p => negb (are_hook_inputs_equal n p)
  | _, _ => true
  end.

Definition schedule (i : nat) (create : closure) : M world unit :=
  modify (fun w => set_scheduled (w_scheduled w ++ [(i, create)]) w).

(** [useEffect( create, deps )]: scheduled on the first render and whenever
    the dependencies changed; the slot keeps the dependencies of the latest
    render in both cases. *)
Definition useEffect (create : closure) (deps : option (list val)) : M world unit :=
  let* (i, s) := next_hook in
  match s with
  | None => push_slot (EffectSlot deps None) >>> schedule i create
  | Some (EffectSlot prev destroy) =>
      write_slot i (EffectSlot deps destroy) >>>
      if deps_changed deps prev then schedule i create else ret tt
  | Some _ => throw TypeError
  end.

(** *** Promises and [localStorage] *)

Definition new_promise (origin : option async_fn) : M world nat :=
  fun w => Ok (List.length (w_promises w))
              (set_promises (w_promises w ++
                 [{| p_origin := origin; p_settled := None; p_reactions := [] |}]) w).

(** [fun()] *)
Definition call_async (fun_ : async_fn) : M world nat := new_promise (Some fun_).

(** [p.finally( onFinally )] on a pending promise. *)
Definition promise_finally (p : nat) (onFinally : closure) : M world nat :=
  let* d := new_promise None in
  fun w =>
    match w_promises w !! p with
    | Some pr =>
        Ok d (set_promises
                (<[p := {| p_origin := p_origin pr; p_settled := p_settled pr;
                           p_reactions := p_reactions pr ++ [(onFinally, d)] |}]>
                   (w_promises w)) w)
    | None => Throw TypeError w
    end.

Definition mark_settled (p : nat) (o : outcome) (w : world) : world :=
  match w_promises w !! p with
  | Some pr =>
      set_promises
        (<[p := {| p_origin := p_origin pr; p_settled := Some o;
                   p_reactions := [] |}]> (w_promises w)) w
  | None => w
  end.

(** [localStorage.getItem( key )]: [None] is [null]. *)
Definition getItem (key : string) : M world (option string) :=
  gets (fun w => w_storage w !! key).

(** [localStorage.setItem( key, text )] *)
Definition setItem (key text : string) : M world unit :=
  modify (fun w => set_storage (<[key := text]> (w_storage w)) w).

(** ** Links *)

Definition ref_truthy (cur : refval) : bool :=
  match cur with
  | RVal v => truthy v
  | RLinks _ => true
  end.

(** Calling the [set] stored in a link. *)
Fixpoint call_setter (s : setter) (x : setarg) : M world unit :=
  match s with
  | StateSetter cell => dispatch_set_state cell x
  | MountedGuard isMounted set =>
      let* current := read_ref isMounted in
      if ref_truthy current then call_setter set x else ret tt
  end.

(** [link.set( x )] *)
Definition link_set (this : Link) (x : setarg) : M world unit :=
  call_setter (set this) x.

(** The function that [update] passes to [set]:
    [x => { const value = clone( x ), result = fun( value, event );
            return result === void 0 ? x : result; }] *)
Definition update_fn (fun_ : val -> val -> M heap val) (event : val)
  : val -> M heap val :=
  fun x =>
    let* value := clone x in
    let* result := fun_ value event in
    ret (if is_undefined result then x else result).

(** [UseStateLink.update( fun, event )]; an absent [event] is [VUndefined]. *)
Definition update (this : Link) (fun_ : val -> val -> M heap val) (event : val)
  : M world unit :=
  link_set this (SetFn (update_fn fun_ event)).

(** Modelled from the spec: [Link.getValues] of [./link], which is not part
    of the sources at hand; "a static batch-read operation
    getValues(namedLinks) -> {key: value}". *)
Definition Link_getValues (links : LinksHash) : M world val :=
  in_heap (alloc (OObject
    (fold_left (fun acc kl => set_prop (fst kl) (value (snd kl)) acc) links []))).

(** Modelled from the spec: [Link.setValues] of [./link], which is not part
    of the sources at hand; "a static batch-write operation
    setValues(namedLinks, {key: value}) that apply external values into the
    corresponding links' set".  A link whose name the object does not have
    is left alone. *)
Definition Link_setValues (links : LinksHash) (source : val) : M world unit :=
  match source with
  | VRef l =>
      let* o := in_heap (load l) in
      match o with
      | OObject props =>
          forM_ links (fun kl =>
            if has_prop (fst kl) props
            then link_set (snd kl) (SetValue (get_prop (fst kl) props))
            else ret tt)
      | OArray _ => ret tt
      end
  | _ => ret tt
  end.

(** ** Bodies of the closures of [hooks.ts] *)

(** [a || b] *)
Definition js_or (a b : val) : val := if truthy a then a else b.

(** [a + b] and [a - b] on operands that convert to integers. *)
Definition js_add (a b : val) : M heap val :=
  match to_number a, to_number b with
  | Some x, Some y => ret (VNum (x + y))
  | _, _ => throw Unmodelled
  end.

Definition js_sub (a b : val) : M heap val :=
  match to_number a, to_number b with
  | Some x, Some y => ret (VNum (x - y))
  | _, _ => throw Unmodelled
  end.

(** [x => ( x || 0 ) + 1] *)
Definition increment : val -> M heap val :=
  fun x => js_add (js_or x (VNum 0)) (VNum 1).

(** [x => x - 1] *)
Definition decrement : val -> M heap val :=
  fun x => js_sub x (VNum 1).

(** [item || '{}'] on [string | null] *)
Definition or_default (item : option string) (default : string) : string :=
  match item with
  | Some s => if String.eqb s EmptyString then default else s
  | None => default
  end.

Definition current_links (stateRef : nat) : M world LinksHash :=
  let* current := read_ref stateRef in
  match current with
  | RLinks links => ret links
  | RVal _ => throw TypeError
  end.

(** The effect of [useLocalStorage]. *)
Definition useLocalStorage_effect (key : string) (stateRef : nat)
  : M world (option closure) :=
  let* item := getItem key in
  let* savedData := in_heap (JSON.parse (or_default item "{}")) in
  let* links := current_links stateRef in
  Link_setValues links savedData >>>
  ret (Some (SaveStorage key stateRef)).

(** [const dataToSave = Link.getValues( links );
     localStorage.setItem( key, JSON.stringify( dataToSave ) );]
    ([setItem] converts its argument to a string). *)
Definition save_links (key : string) (links : LinksHash) : M world unit :=
  let* dataToSave := Link_getValues links in
  let* text := in_heap (JSON.stringify dataToSave) in
  setItem key (match text with Some t => t | None => "undefined" end).

(** The destroy function it returns, which reads [stateRef.current]. *)
Definition useLocalStorage_destroy (key : string) (stateRef : nat)
  : M world unit :=
  let* links := current_links stateRef in
  save_links key links.

(** The effect of [useIO]. *)
Definition useIO_effect (fun_ : async_fn) (isReady : Link)
  : M world (option closure) :=
  link_set isReady (SetFn increment) >>>
  let* p := call_async fun_ in
  promise_finally p (SettleIO isReady) >>>
  ret None.

(** Running a closure; the result is the destroy function that an effect
    returns, if any. *)
Definition run_closure (c : closure) : M world (option closure) :=
  match c with
  | ClearMounted isMounted =>
      write_ref isMounted (RVal (VBool false)) >>> ret None
  | WatchMounted isMounted => ret (Some (ClearMounted isMounted))
  | SyncLink link v => link_set link (SetValue v) >>> ret None
  | LoadStorage key stateRef => useLocalStorage_effect key stateRef
  | SaveStorage key stateRef =>
      useLocalStorage_destroy key stateRef >>> ret None
  | RunIO fun_ isReady => useIO_effect fun_ isReady
  | SettleIO isReady => link_set isReady (SetFn decrement) >>> ret None
  end.

(** ** Commit, render, teardown and promise settlement *)

Definition run_destroy (i : nat) : M world unit :=
  fun w =>
    match w_fiber w !! i with
    | Some (EffectSlot deps (Some destroy)) =>
        (run_closure destroy >>> write_slot i (EffectSlot deps None)) w
    | _ => Ok tt w
    end.

Definition run_create (i : nat) (create : closure) : M world unit :=
  let* destroy := run_closure create in
  fun w =>
    match w_fiber w !! i with
    | Some (EffectSlot deps _) =>
        Ok tt (set_fiber (<[i := EffectSlot deps destroy]> (w_fiber w)) w)
    | _ => Throw TypeError w
    end.

(** After a render the host runs the destroy functions of the effects that
    are scheduled again, then the scheduled effects, in hook order. *)
Definition commit_effects : M world unit :=
  let* effects := gets w_scheduled in
  modify (set_scheduled []) >>>
  forM_ effects (fun e => run_destroy (fst e)) >>>
  forM_ effects (fun e => run_create (fst e) (snd e)).

(** One render pass of a component body, with its commit. *)
Definition render {A} (body : M world A) : M world A :=
  modify (fun w => set_scheduled [] (set_cursor O w)) >>>
  let* out := body in
  commit_effects >>>
  ret out.

(** Teardown: every remaining destroy function runs, then the instance is
    unmounted for the host. *)
Definition unmount : M world unit :=
  fun w =>
    if w_mounted w then
      match forM_ (seq O (List.length (w_fiber w))) run_destroy w with
      | Ok _ w' => Ok tt (set_mounted false w')
      | Throw e w' => Throw e (set_mounted false w')
      end
    else Ok tt w.

(** A [finally] reaction: the callback runs, then the promise that
    [finally] returned settles like the original one, or rejects with what
    the callback threw. *)
Definition run_reaction (o : outcome) (r : closure * nat) : M world unit :=
  fun w =>
    match run_closure (fst r) w with
    | Ok _ w' => Ok tt (mark_settled (snd r) o w')
    | Throw e w' => Ok tt (mark_settled (snd r) (Rejected e) w')
    end.

(** The environment settles the promise of a started operation; a promise
    settles once. *)
Definition settle (p : nat) (o : outcome) : M world unit :=
  fun w =>
    match w_promises w !! p with
    | Some pr =>
        match p_origin pr, p_settled pr with
        | Some _, None => forM_ (p_reactions pr) (run_reaction o) (mark_settled p o w)
        | _, _ => Ok tt w
        end
    | None => Ok tt w
    end.

(** ** The hooks of [hooks.ts] *)

(** Create the link to the local state. *)
Definition useLink (initialState : val) : M world Link :=
  let* (value, set) := useState initialState in
  ret (UseStateLink value set).

(** Returns the ref which is true when the component is mounted. *)
Definition useIsMountedRef : M world nat :=
  let* isMounted := useRef (RVal (VBool true)) in
  useEffect (WatchMounted isMounted) (Some []) >>>
  ret isMounted.

(** Create the link to the local state which is safe to set when the
    component is unmounted. *)
Definition useSafeLink (initialState : val) : M world Link :=
  let* (value, set) := useState initialState in
  let* isMounted := useIsMountedRef in
  ret (UseStateLink value (MountedGuard isMounted set)).

(** [T | Link<T>] *)
Inductive source :=
| SourceValue (v : val)
| SourceLink (l : Link).

(** [source instanceof Link ? source.value : source] *)
Definition source_value (s : source) : val :=
  match s with
  | SourceLink l => value l
  | SourceValue v => v
  end.

Definition useBoundLink (source : source) : M world Link :=
  let value := source_value source in
  let* link := useLink value in
  useEffect (SyncLink link value) (Some [value]) >>>
  ret link.

Definition useSafeBoundLink (source : source) : M world Link :=
  let value := source_value source in
  let* link := useSafeLink value in
  useEffect (SyncLink link value) (Some [value]) >>>
  ret link.

Definition useLocalStorage (key : string) (state : LinksHash) : M world unit :=
  let* stateRef := useRef (RVal VUndefined) in
  write_ref stateRef (RLinks state) >>>
  useEffect (LoadStorage key stateRef) (Some []).

(** [v === null ? false : !v] *)
Definition readiness (v : val) : bool :=
  match v with
  | VNull => false
  | _ => negb (truthy v)
  end.

Definition useIO (fun_ : async_fn) (condition : list val) : M world bool :=
  let* isReady := useSafeLink VNull in
  useEffect (RunIO fun_ isReady) (Some condition) >>>
  ret (readiness (value isReady)).

(** ** Traces

    What happens to a component instance: the host renders it (the first
    render mounts it; an unmounted instance is not rendered again), the host
    tears it down, the environment settles a promise, or the application
    calls [set] or [update] on a link it holds. *)

Inductive link_call :=
| CallSet (x : setarg)
| CallUpdate (fun_ : val -> val -> M heap val) (event : val).

Definition do_call (l : Link) (c : link_call) : M world unit :=
  match c with
  | CallSet x => link_set l x
  | CallUpdate fun_ event => update l fun_ event
  end.

Inductive event (P : Type) :=
| Render (props : P)
| Unmount
| Settle (p : nat) (o : outcome)
| Call (l : Link) (c : link_call).
Arguments Render {P} props.
Arguments Unmount {P}.
Arguments Settle {P} p o.
Arguments Call {P} l c.

Section Traces.
Context {P A : Type} (component : P -> M world A).

(** The result of a step is what the render returned, if it was one. *)
Definition step (e : event P) : M world (option A) :=
  match e with
  | Render props =>
      fun w => if w_mounted w
               then (let* out := render (component props) in ret (Some out)) w
               else Ok None w
  | Unmount => unmount >>> ret None
  | Settle p o => settle p o >>> ret None
  | Call l c => do_call l c >>> ret None
  end.

Definition run (trace : list (event P)) : M world (list (option A)) :=
  mapM step trace.

End Traces.

Definition is_render {P} (e : event P) : bool :=
  match e with Render _ => true | _ => false end.

Definition is_unmount {P} (e : event P) : bool :=
  match e with Unmount => true | _ => false end.

Definition is_call {P} (e : event P) : bool :=
  match e with Call _ _ => true | _ => false end.

(** ** Components and invariants used in the statements *)

(** A component that only tracks its mount state. *)
Definition tracker (_ : unit) : M world nat := useIsMountedRef.

(** [isMounted.current] of that component. *)
Definition flag (w : world) : option bool :=
  match w_fiber w !! O with
  | Some (RefSlot (RVal (VBool b))) => Some b
  | _ => None
  end.

Definition tracker_inv (tr : list (event unit)) (w : world) : Prop :=
  w_fiber w =
    [RefSlot (RVal (VBool (w_mounted w)));
     EffectSlot (Some []) (if w_mounted w then Some (ClearMounted O) else None)] /\
  w_promises w = [] /\
  w_mounted w = negb (existsb is_unmount tr).

(** The hook slots of a component whose body is [useSafeLink]: the state
    cell, the mount flag, the effect that watches the teardown. *)
Definition safe_link_fiber (st : val) (queue : list setarg) (mounted : bool)
  : list slot :=
  [StateSlot st queue;
   RefSlot (RVal (VBool mounted));
   EffectSlot (Some []) (if mounted then Some (ClearMounted 1) else None)].

Definition safe_link_inv (outs : list (option Link)) (w : world) : Prop :=
  (exists st queue, w_fiber w = safe_link_fiber st queue (w_mounted w)) /\
  w_promises w = [] /\
  (forall l, In (Some l) outs -> set l = MountedGuard 1 (StateSetter 0)).

(** [draft => { draft.a = 2 }]: an update function that changes its draft in
    place and returns nothing. *)
Definition set_a_to_2 : val -> val -> M heap val :=
  fun draft _ =>
    match draft with
    | VRef l =>
        let* o := load l in
        match o with
        | OObject props =>
            store l (OObject (set_prop "a" (VNum 2) props)) >>> ret VUndefined
        | OArray _ => ret VUndefined
        end
    | _ => ret VUndefined
    end.

(** The hook slots of a component whose body is [useLocalStorage]: the ref
    that holds the links of the latest render, and the load-and-save
    effect. *)
Definition storage_fiber (links : LinksHash) (key : string) (mounted : bool)
  : list slot :=
  [RefSlot (RLinks links);
   EffectSlot (Some []) (if mounted then Some (SaveStorage key 0) else None)].

Definition no_state_cell (w : world) : Prop :=
  forall cell st q, w_fiber w !! cell <> Some (StateSlot st q).

(** The two bound hooks, told apart by a flag. *)
Definition bound (safe : bool) (s : source) : M world Link :=
  if safe then useSafeBoundLink s else useBoundLink s.

Definition bound_setter (safe : bool) : setter :=
  if safe then MountedGuard 1 (StateSetter 0) else StateSetter 0.

(** The hook slots of a mounted component whose body is a bound hook; [a]
    is the source value that the synchronizing effect saw last. *)
Definition bound_fiber (safe : bool) (st : val) (queue : list setarg) (a : val)
  : list slot :=
  if safe
  then [StateSlot st queue;
        RefSlot (RVal (VBool true));
        EffectSlot (Some []) (Some (ClearMounted 1));
        EffectSlot (Some [a]) None]
  else [StateSlot st queue; EffectSlot (Some [a]) None].

(** The source value of the last render of a trace that started with a
    render of [s0]. *)
Definition synced_value (s0 : source) (tr : list (event source)) : val :=
  fold_left (fun a e => match e with Render s => source_value s | _ => a end)
            tr (source_value s0).

(** The updates queued on the first state cell and not yet applied. *)
Definition pending_sets (w : world) : list setarg :=
  match w_fiber w !! O with
  | Some (StateSlot _ queue) => queue
  | _ => []
  end.

Definition bound_inv (safe : bool) (s0 : source) (tr : list (event source))
  (w : world) : Prop :=
  w_promises w = [] /\
  (w_mounted w = true ->
   exists st queue, w_fiber w = bound_fiber safe st queue (synced_value s0 tr)).

(** A component whose body is [useIO]; its props are the operation and the
    dependency list. *)
Definition io (props : async_fn * list val) : M world bool :=
  useIO (fst props) (snd props).

Definition io_setter : setter := MountedGuard 1 (StateSetter 0).

(** The hook slots of that component: the counter, the mount flag with its
    effect, and the dispatching effect with the dependencies it saw last. *)
Definition io_fiber (st : val) (queue : list setarg) (mounted : bool)
  (condition : list val) : list slot :=
  [StateSlot st queue;
   RefSlot (RVal (VBool mounted));
   EffectSlot (Some []) (if mounted then Some (ClearMounted 1) else None);
   EffectSlot (Some condition) None].

(** The promise of an operation that [useIO] started, with the [finally]
    reaction that the effect registered, and the promise that [finally]
    returned. *)
Definition started (fun_ : async_fn) (v : val) (d : nat) : promise :=
  {| p_origin := Some fun_; p_settled := None;
     p_reactions := [(SettleIO (UseStateLink v io_setter), d)] |}.

Definition derived : promise :=
  {| p_origin := None; p_settled := None; p_reactions := [] |}.

Definition is_outstanding (p : promise) : bool :=
  match p_origin p, p_settled p with
  | Some _, None => true
  | _, _ => false
  end.

(** The number of started operations that have not settled. *)
Definition outstanding (w : world) : nat :=
  List.length (List.filter is_outstanding (w_promises w)).

(** The value of the first state cell as the next render will read it: the
    state with the queued updates applied. *)
Definition counter (w : world) : option val :=
  match w_fiber w !! O with
  | Some (StateSlot st queue) =>
      match flush st queue (w_heap w) with
      | Ok v _ => Some v
      | Throw _ _ => None
      end
  | _ => None
  end.

Definition wf_promises (pr : list promise) : Prop :=
  forall i x, pr !! i = Some x -> is_outstanding x = true ->
    (exists f v, x = started f v (S i)) /\
    (exists y, pr !! S i = Some y /\ p_origin y = None).

(** The counter cell holds the number [n], whatever the heap. *)
Definition holds (st : val) (queue : list setarg) (n : Z) : Prop :=
  forall h : heap, flush st queue h = Ok (VNum n) h.

Definition io_inv (w : world) : Prop :=
  exists st queue cond,
    w_fiber w = io_fiber st queue (w_mounted w) cond /\
    wf_promises (w_promises w) /\
    (w_mounted w = true -> holds st queue (Z.of_nat (outstanding w))).

(** [mark_settled] on the table. *)
Definition mark (p : nat) (o : outcome) (pr : list promise) : list promise :=
  match pr !! p with
  | Some x =>
      <[p := {| p_origin := p_origin x; p_settled := Some o;
                p_reactions := [] |}]> pr
  | None => pr
  end.

Definition no_calls {P} (tr : list (event P)) : bool :=
  forallb (fun e => negb (is_call e)) tr.

Definition count_outstanding (pr : list promise) : nat :=
  List.length (List.filter is_outstanding pr).

(** A mounted tracker whose counter holds [n], with the dependencies and
    the promise table given. *)
Definition io_at (n : Z) (cond : list val) (pr : list promise) (w : world)
  : Prop :=
  exists st queue h cur sch sto wn,
    w = Build_world h (io_fiber st queue true cond) cur sch true pr sto wn /\
    holds st queue n.

(** The dependency list that the dispatching effect of [useIO] saw last. *)
Definition io_deps (w : world) : list val :=
  match w_fiber w !! 3%nat with
  | Some (EffectSlot (Some c) _) => c
  | _ => []
  end.

(** A component that persists the links it is given; its props are the
    key and the links. *)
Definition persist (props : string * LinksHash) : M world unit :=
  useLocalStorage (fst props) (snd props).


(** Every render of the trace passes the default, empty dependency list. *)
Definition default_condition (tr : list (event (async_fn * list val))) : bool :=
  forallb (fun e => match e with
                    | Render (_, []) => true
                    | Render (_, _ :: _) => false
                    | _ => true
                    end) tr.

(** The hook slots of a component whose body is [useSafeBoundLink], mounted
    or not. *)
Definition safe_bound_fiber (st : val) (queue : list setarg) (mounted : bool)
  (a : val) : list slot :=
  [StateSlot st queue;
   RefSlot (RVal (VBool mounted));
   EffectSlot (Some []) (if mounted then Some (ClearMounted 1) else None);
   EffectSlot (Some [a]) None].

Definition safe_bound_inv (outs : list (option Link)) (w : world) : Prop :=
  (exists st queue a, w_fiber w = safe_bound_fiber st queue (w_mounted w) a) /\
  w_promises w = [] /\
  (forall l, In (Some l) outs -> set l = MountedGuard 1 (StateSetter 0)).

Local Open Scope list_scope.

(** * Proofs *)

(** ** The monad and traces *)

Lemma bind_Ok_inv {S A B} (m : M S A) (k : A -> M S B) s b s'' :
  bind m k s = Ok b s'' -> exists a s', m s = Ok a s' /\ k a s' = Ok b s''.
Proof.
  unfold bind. destruct (m s) as [a s'|e s']; [eauto | discriminate].
Qed.

Lemma run_nil {P A} (c : P -> M world A) w : run c [] w = Ok [] w.
Proof. reflexivity. Qed.

Lemma run_cons {P A} (c : P -> M world A) e tr w :
  run c (e :: tr) w =
  match step c e w with
  | Ok o w' => match run c tr w' with
               | Ok os w'' => Ok (o :: os) w''
               | Throw x w'' => Throw x w''
               end
  | Throw x w' => Throw x w'
  end.
Proof.
  unfold run; simpl. unfold bind.
  destruct (step c e w); [|reflexivity].
  destruct (mapM (step c) tr s); reflexivity.
Qed.

Lemma run_snoc_inv {P A} (c : P -> M world A) tr e w outs w'' :
  run c (tr ++ [e]) w = Ok outs w'' ->
  exists os w' o, run c tr w = Ok os w' /\ step c e w' = Ok o w'' /\ outs = os ++ [o].
Proof.
  revert w outs. induction tr as [|e0 tr IH]; intros w outs.
  - simpl app. rewrite run_cons.
    destruct (step c e w) as [o w'|] eqn:E; [|discriminate].
    rewrite run_nil. intros [= <- <-]. exists [], w, o. rewrite run_nil. auto.
  - simpl app. rewrite !run_cons.
    destruct (step c e0 w) as [o0 w1|]; [|discriminate].
    destruct (run c (tr ++ [e]) w1) as [os1 w2|] eqn:E; [|discriminate].
    intros [= <- <-]. apply IH in E as (os & w' & o & -> & Hs & ->).
    exists (o0 :: os), w', o. auto.
Qed.

(** Induction over the states that a trace reaches. *)
Lemma run_ind {P A} (c : P -> M world A)
  (Inv : list (event P) -> list (option A) -> world -> Prop) w0 :
  Inv [] [] w0 ->
  (forall tr outs e w o w',
      Inv tr outs w -> step c e w = Ok o w' -> Inv (tr ++ [e]) (outs ++ [o]) w') ->
  forall tr outs w, run c tr w0 = Ok outs w -> Inv tr outs w.
Proof.
  intros H0 Hstep tr. induction tr as [|e tr IH] using rev_ind; intros outs w.
  - rewrite run_nil. intros [= <- <-]. exact H0.
  - intros H. apply run_snoc_inv in H as (os & w' & o & Hr & Hs & ->).
    eapply Hstep; eauto.
Qed.

(** The same, for a trace that starts with the mounting render. *)
Lemma run_mounted_ind {P A} (c : P -> M world A)
  (Inv : list (event P) -> list (option A) -> world -> Prop) p0 w0 :
  (forall o w1, step c (Render p0) w0 = Ok o w1 -> Inv [] [o] w1) ->
  (forall tr outs e w o w',
      Inv tr outs w -> step c e w = Ok o w' -> Inv (tr ++ [e]) (outs ++ [o]) w') ->
  forall tr outs w, run c (Render p0 :: tr) w0 = Ok outs w -> Inv tr outs w.
Proof.
  intros H0 Hstep tr outs w. rewrite run_cons.
  destruct (step c (Render p0) w0) as [o w1|] eqn:E1; [|discriminate].
  destruct (run c tr w1) as [os w2|] eqn:E2; [|discriminate].
  intros [= <- <-].
  apply (run_ind c (fun tr outs w => Inv tr (o :: outs) w) w1); auto.
  intros tr0 outs0 e w' o' w'' Hi Hs.
  exact (Hstep tr0 (o :: outs0) e w' o' w'' Hi Hs).
Qed.

Lemma existsb_snoc {X} (f : X -> bool) l x :
  existsb f (l ++ [x]) = existsb f l || f x.
Proof. rewrite existsb_app. simpl. now rewrite orb_false_r. Qed.

(** ** What a call of a link's [set] can do to the world *)

Lemma call_setter_effect s x w u w' :
  call_setter s x w = Ok u w' ->
  w' = w \/
  (w_mounted w = false /\ w' = set_warnings (S (w_warnings w)) w) \/
  (w_mounted w = true /\ exists cell st q,
      w_fiber w !! cell = Some (StateSlot st q) /\
      w' = set_fiber (<[cell := StateSlot st (q ++ [x])]> (w_fiber w)) w).
Proof.
  revert w u w'. induction s as [cell | r s IH]; intros w u w'; simpl.
  - unfold dispatch_set_state. destruct (w_mounted w) eqn:Hm.
    + destruct (w_fiber w !! cell) as [[st q| |]|] eqn:Hc; try discriminate.
      intros [= _ <-]. right; right. split; [reflexivity|]. eauto.
    + intros [= _ <-]. right; left. auto.
  - intros H. apply bind_Ok_inv in H as (cur & w1 & Hr & Hk).
    unfold read_ref in Hr.
    destruct (w_fiber w !! r) as [[| cur' |]|]; try discriminate.
    injection Hr as <- <-.
    destruct (ref_truthy cur'); [eauto|].
    injection Hk as _ <-. auto.
Qed.

Lemma do_call_effect l c w u w' :
  do_call l c w = Ok u w' ->
  w' = w \/
  (w_mounted w = false /\ w' = set_warnings (S (w_warnings w)) w) \/
  (w_mounted w = true /\ exists cell st q x,
      w_fiber w !! cell = Some (StateSlot st q) /\
      w' = set_fiber (<[cell := StateSlot st (q ++ [x])]> (w_fiber w)) w).
Proof.
  destruct c as [x | f ev]; simpl; unfold update, link_set; intros H;
    (apply call_setter_effect in H as [H | [H | (Hm & cell & st & q & Hc & H)]];
     [ left; exact H
     | right; left; exact H
     | right; right; split; [exact Hm|];
       exists cell, st, q; eexists; split; [exact Hc | exact H] ]).
Qed.

(** ** The mount tracker *)

Lemma tracker_step tr e w o w' :
  tracker_inv tr w -> step tracker e w = Ok o w' -> tracker_inv (tr ++ [e]) w'.
Proof.
  unfold tracker_inv. intros (Hf & Hp & Hm).
  rewrite existsb_snoc, negb_orb, <- Hm. clear Hm.
  destruct w as [h f c sch m pr sto wn]; simpl in *; subst f pr.
  destruct e as [[] | | p out | l c0].
  - destruct m; cbn; intros [= _ <-]; cbn; auto.
  - destruct m; cbn; intros [= _ <-]; cbn; auto.
  - cbn. intros [= _ <-]. cbn. rewrite andb_true_r. auto.
  - unfold step. intros H. apply bind_Ok_inv in H as (u & w1 & H & [= _ <-]).
    rewrite andb_true_r.
    apply do_call_effect in H as [-> | [(_ & ->) | (_ & cell & st & q & x & Hc & _)]];
      [cbn; auto | cbn; auto |].
    exfalso. simpl in Hc. destruct cell as [|[|cell]]; discriminate.
Qed.

(** C7: the flag of the mount tracker is true from the mounting render on,
    false once the teardown has happened, and it tracks the host's own
    knowledge of the instance in every state that a trace of renders,
    teardowns, promise settlements and link calls reaches. *)
Theorem mount_flag_lifecycle h st tr outs w :
  run tracker (Render tt :: tr) (fresh_world h st) = Ok outs w ->
  flag w = Some (negb (existsb is_unmount tr)) /\
  w_mounted w = negb (existsb is_unmount tr).
Proof.
  intros H.
  assert (Hinv : tracker_inv tr w).
  { revert H. apply (run_mounted_ind tracker (fun tr _ w => tracker_inv tr w)).
    - cbn. intros o w1 [= _ <-]. unfold tracker_inv. cbn. auto.
    - intros. eapply tracker_step; eauto. }
  destruct Hinv as (Hf & _ & Hm). split; [|exact Hm].
  unfold flag. now rewrite Hf, Hm.
Qed.

Lemma mount_flag_lifecycle_witness :
  exists outs w,
    run tracker [Render tt; Render tt; Unmount; Render tt] (fresh_world ∅ ∅) = Ok outs w /\
    flag w = Some false /\ w_mounted w = false.
Proof.
  eexists. eexists.
  refine ((fun H => conj H (mount_flag_lifecycle ∅ ∅ [Render tt; Unmount; Render tt] _ _ H)) _).
  vm_compute. reflexivity.
Defined.


Lemma in_snoc {X} (x : X) l y : In x (l ++ [y]) <-> In x l \/ x = y.
Proof. rewrite in_app_iff. simpl. intuition. Qed.

Ltac hooks :=
  unfold step, render, commit_effects, unmount, settle,
    useIO, useLocalStorage, useSafeBoundLink, useBoundLink, useSafeLink,
    useIsMountedRef, useLink, useState, useRef, useEffect, next_hook,
    push_slot, write_slot, schedule, in_heap, bind, ret, modify, gets, throw;
  cbn.

Ltac wsimpl :=
  lazy beta iota zeta delta
    [set_heap set_fiber set_cursor set_scheduled set_mounted set_promises
     set_storage set_warnings
     w_heap w_fiber w_cursor w_scheduled w_mounted w_promises w_storage
     w_warnings].

(** ** Safe links *)

Lemma useSafeLink_mount init h sto :
  render (useSafeLink init) (fresh_world h sto) =
  Ok (UseStateLink init (MountedGuard 1 (StateSetter 0)))
     (Build_world h (safe_link_fiber init [] true) 3 [] true [] sto 0).
Proof. reflexivity. Qed.

Lemma useSafeLink_rerender init st q h c sch pr sto wn :
  render (useSafeLink init)
    (Build_world h (safe_link_fiber st q true) c sch true pr sto wn) =
  match flush st q h with
  | Ok st' h' =>
      Ok (UseStateLink st' (MountedGuard 1 (StateSetter 0)))
         (Build_world h' (safe_link_fiber st' [] true) 3 [] true pr sto wn)
  | Throw e h' =>
      Throw e (Build_world h' (safe_link_fiber st q true) 1 [] true pr sto wn)
  end.
Proof.
  unfold safe_link_fiber. hooks. destruct (flush st q h); reflexivity.
Qed.

Lemma useSafeLink_unmount st q h c sch pr sto wn :
  unmount (Build_world h (safe_link_fiber st q true) c sch true pr sto wn) =
  Ok tt (Build_world h (safe_link_fiber st q false) c sch false pr sto wn).
Proof. reflexivity. Qed.

Lemma unmount_unmounted w : w_mounted w = false -> unmount w = Ok tt w.
Proof. intros H. unfold unmount. now rewrite H. Qed.

Lemma settle_no_promises p o w : w_promises w = [] -> settle p o w = Ok tt w.
Proof. intros H. unfold settle. now rewrite H. Qed.

Lemma step_settle_no_promises {P A} (c : P -> M world A) p o w :
  w_promises w = [] -> step c (Settle p o) w = Ok None w.
Proof. intros H. unfold step, bind. now rewrite settle_no_promises. Qed.

Lemma step_render_unmounted {P A} (c : P -> M world A) props w :
  w_mounted w = false -> step c (Render props) w = Ok None w.
Proof. intros H. unfold step. now rewrite H. Qed.

Lemma step_call_inv {P A} (c : P -> M world A) l k w o w' :
  step c (Call l k) w = Ok o w' -> o = None /\ do_call l k w = Ok tt w'.
Proof.
  unfold step. intros H. apply bind_Ok_inv in H as ([] & w1 & H & [= <- <-]). auto.
Qed.

Lemma safe_link_step outs e w o w' :
  safe_link_inv outs w -> step useSafeLink e w = Ok o w' ->
  safe_link_inv (outs ++ [o]) w'.
Proof.
  unfold safe_link_inv. intros ((st & q & Hf) & Hp & Hl).
  destruct w as [h f c sch m pr sto wn]; simpl in *; subst f pr.
  assert (Hnone : forall l, In (Some l) (outs ++ [None]) ->
                            set l = MountedGuard 1 (StateSetter 0)).
  { intros l [Hin | [=]]%in_snoc; auto. }
  destruct e as [init | | p out | l k].
  - destruct m.
    + unfold step, bind. rewrite useSafeLink_rerender.
      destruct (flush st q h) as [st' h'|]; [|discriminate].
      intros [= <- <-]. simpl. split; [eauto|]. split; [reflexivity|].
      intros l [Hin | [= ->]]%in_snoc; auto.
    + rewrite step_render_unmounted by reflexivity.
      intros [= <- <-]. simpl. eauto.
  - unfold step, bind. destruct m.
    + rewrite useSafeLink_unmount. intros [= <- <-]. simpl. eauto.
    + rewrite unmount_unmounted by reflexivity. intros [= <- <-]. simpl. eauto.
  - rewrite step_settle_no_promises by reflexivity.
    intros [= <- <-]. simpl. eauto.
  - intros [-> H]%step_call_inv.
    apply do_call_effect in H as [-> | [(_ & ->) | (Hm & cell & st0 & q0 & x & Hc & ->)]];
      simpl in *; [eauto | eauto |].
    subst m. destruct cell as [|[|[|cell]]]; try discriminate.
    simpl in *. eauto.
Qed.

Lemma safe_link_reach h sto init tr outs w :
  run useSafeLink (Render init :: tr) (fresh_world h sto) = Ok outs w ->
  safe_link_inv outs w.
Proof.
  apply (run_mounted_ind useSafeLink (fun _ outs w => safe_link_inv outs w)).
  - unfold step, bind. simpl w_mounted. rewrite useSafeLink_mount.
    intros o w1 [= <- <-]. unfold safe_link_inv. simpl.
    split; [eauto|]. split; [reflexivity|]. intros l [[= <-]|[]]. reflexivity.
  - intros. eapply safe_link_step; eauto.
Qed.

(** A guarded [set] on a torn-down instance returns without touching the
    world, whatever its argument. *)
Lemma guarded_set_unmounted st q x w :
  w_fiber w = safe_link_fiber st q false ->
  call_setter (MountedGuard 1 (StateSetter 0)) x w = Ok tt w.
Proof.
  intros Hf. simpl. unfold bind, read_ref. rewrite Hf. reflexivity.
Qed.

(** C2: on a Safe Link whose component has been torn down, [set] with any
    argument (a value or a function) returns normally and leaves the world
    as it was: the state cell and its queue, the heap, and the host's
    warning count are unchanged, so nothing is applied, scheduled or
    reported. *)
Theorem safe_link_set_after_teardown h sto init tr outs w link x :
  run useSafeLink (Render init :: tr) (fresh_world h sto) = Ok outs w ->
  w_mounted w = false ->
  In (Some link) outs ->
  link_set link x w = Ok tt w.
Proof.
  intros Hrun Hm Hin. apply safe_link_reach in Hrun as ((st & q & Hf) & _ & Hl).
  unfold link_set. rewrite (Hl _ Hin). rewrite Hm in Hf.
  eapply guarded_set_unmounted; eauto.
Qed.

Lemma safe_link_set_after_teardown_witness :
  let l := UseStateLink (VNum 0) (MountedGuard 1 (StateSetter 0)) in
  let w := Build_world ∅ (safe_link_fiber (VNum 0) [] false) 3 [] false [] ∅ 0 in
  link_set l (SetValue (VNum 1)) w = Ok tt w.
Proof.
  intros l w.
  apply (safe_link_set_after_teardown ∅ ∅ (VNum 0) [Unmount] [Some l; None] w l).
  - vm_compute. reflexivity.
  - reflexivity.
  - left. reflexivity.
Defined.

(** C9: on a Safe Link whose component has been torn down, [update] is a
    no-op as well: for every update function the world is left as it was, so
    the function was not run (no effect of it on the heap), no clone was
    allocated and no update was queued. *)
Theorem safe_link_update_after_teardown h sto init tr outs w link fun_ event :
  run useSafeLink (Render init :: tr) (fresh_world h sto) = Ok outs w ->
  w_mounted w = false ->
  In (Some link) outs ->
  update link fun_ event w = Ok tt w.
Proof.
  intros Hrun Hm Hin. apply safe_link_reach in Hrun as ((st & q & Hf) & _ & Hl).
  unfold update, link_set. rewrite (Hl _ Hin). rewrite Hm in Hf.
  eapply guarded_set_unmounted; eauto.
Qed.

Lemma safe_link_update_after_teardown_witness :
  let l := UseStateLink (VNum 0) (MountedGuard 1 (StateSetter 0)) in
  let w := Build_world ∅ (safe_link_fiber (VNum 0) [] false) 3 [] false [] ∅ 0 in
  update l (fun draft _ => ret (VNum 7)) VUndefined w = Ok tt w.
Proof.
  intros l w.
  apply (safe_link_update_after_teardown ∅ ∅ (VNum 0) [Unmount] [Some l; None] w l).
  - vm_compute. reflexivity.
  - reflexivity.
  - left. reflexivity.
Defined.

(** ** State-backed links and [update] *)

Lemma flush_snoc st q x h :
  flush st (q ++ [x]) h =
  match flush st q h with
  | Ok st' h' => apply_setarg st' x h'
  | Throw e h' => Throw e h'
  end.
Proof.
  revert st h. induction q as [|y q IH]; intros st h; simpl.
  - unfold bind. destruct (apply_setarg st x h); reflexivity.
  - unfold bind. destruct (apply_setarg st y h) as [st1 h1|]; [apply IH | reflexivity].
Qed.

Lemma useLink_mount init h sto :
  render (useLink init) (fresh_world h sto) =
  Ok (UseStateLink init (StateSetter 0))
     (Build_world h [StateSlot init []] 1 [] true [] sto 0).
Proof. reflexivity. Qed.

Lemma useLink_rerender init st q h c sch pr sto wn :
  render (useLink init) (Build_world h [StateSlot st q] c sch true pr sto wn) =
  match flush st q h with
  | Ok st' h' =>
      Ok (UseStateLink st' (StateSetter 0))
         (Build_world h' [StateSlot st' []] 1 [] true pr sto wn)
  | Throw e h' =>
      Throw e (Build_world h' [StateSlot st q] 1 [] true pr sto wn)
  end.
Proof. hooks. destruct (flush st q h); reflexivity. Qed.

(** What the function that [update] hands to [set] computes. *)
Lemma update_fn_result fun_ event x h d h1 r h2 :
  clone x h = Ok d h1 ->
  fun_ d event h1 = Ok r h2 ->
  update_fn fun_ event x h = Ok (if is_undefined r then x else r) h2.
Proof.
  intros Hc Hf. unfold update_fn, bind. rewrite Hc, Hf. reflexivity.
Qed.

(** C1 (as the code has it): [update( fun, event )] on a link to local state
    hands the host a function of the current value [x] (the state with the
    queued updates applied).  At the next render that function clones [x],
    calls [fun] on the clone and the event, and the link then reads the
    result of [fun] when it is defined, and [x] itself when [fun] returned
    [undefined]; the draft is not committed in that case. *)
Theorem update_commits_result_or_current
  init x0 q h0 c sch pr sto wn link fun_ event x h d h1 r h2 :
  set link = StateSetter 0 ->
  flush x0 q h0 = Ok x h ->
  clone x h = Ok d h1 ->
  fun_ d event h1 = Ok r h2 ->
  (update link fun_ event >>> render (useLink init))
    (Build_world h0 [StateSlot x0 q] c sch true pr sto wn) =
  Ok (UseStateLink (if is_undefined r then x else r) (StateSetter 0))
     (Build_world h2 [StateSlot (if is_undefined r then x else r) []]
                  1 [] true pr sto wn).
Proof.
  intros Hs Hq Hc Hf.
  unfold update, link_set, bind at 1. rewrite Hs. cbn [call_setter].
  unfold dispatch_set_state. cbn [w_mounted w_fiber lookup list_lookup].
  wsimpl. cbn [insert list_insert].
  rewrite useLink_rerender, flush_snoc, Hq. cbn [apply_setarg].
  rewrite (update_fn_result _ _ _ _ _ _ _ _ Hc Hf). reflexivity.
Qed.

Lemma update_commits_result_or_current_witness :
  (update (UseStateLink (VNum 1) (StateSetter 0))
          (fun draft _ => js_add draft (VNum 4)) VUndefined >>>
   render (useLink (VNum 0)))
    (Build_world ∅ [StateSlot (VNum 1) []] 1 [] true [] ∅ 0) =
  Ok (UseStateLink (VNum 5) (StateSetter 0))
     (Build_world ∅ [StateSlot (VNum 5) []] 1 [] true [] ∅ 0).
Proof.
  apply (update_commits_result_or_current (VNum 0) (VNum 1) [] ∅ 1 [] [] ∅ 0
           (UseStateLink (VNum 1) (StateSetter 0))
           (fun draft _ => js_add draft (VNum 4)) VUndefined
           (VNum 1) ∅ (VNum 1) ∅ (VNum 5) ∅);
    reflexivity.
Defined.

(** C1 (as stated) fails: with the current value an object [{ a : 1 }] at
    location 0 and an update function that sets [draft.a = 2] and returns
    nothing, the draft is the fresh object at location 1, it is mutated, and
    the link reads the original reference 0, whose object still has
    [a = 1]. *)
Lemma update_undefined_commits_original_not_draft :
  let h : heap := {[ 0%nat := OObject [("a", VNum 1)] ]} in
  exists h1 w,
    clone (VRef 0) h = Ok (VRef 1) h1 /\
    (let* l := render (useLink (VRef 0)) in
     update l set_a_to_2 VUndefined >>> render (useLink (VRef 0)))
      (fresh_world h ∅) = Ok (UseStateLink (VRef 0) (StateSetter 0)) w /\
    w_heap w !! 1%nat = Some (OObject [("a", VNum 2)]) /\
    w_heap w !! 0%nat = Some (OObject [("a", VNum 1)]) /\
    value (UseStateLink (VRef 0) (StateSetter 0)) <> VRef 1.
Proof.
  intros h. eexists. eexists.
  split; [vm_compute; reflexivity|].
  split; [vm_compute; reflexivity|].
  split; [vm_compute; reflexivity|].
  split; [vm_compute; reflexivity|].
  discriminate.
Qed.

(** ** Persistence in [localStorage] *)

Local Opaque useLocalStorage_effect.

(** The mounting render of [useLocalStorage], up to its effect. *)
Lemma useLocalStorage_mount key state h sto :
  render (useLocalStorage key state) (fresh_world h sto) =
  match useLocalStorage_effect key 0
          (Build_world h [RefSlot (RLinks state); EffectSlot (Some []) None]
                       2 [] true [] sto 0) with
  | Ok destroy w' =>
      match w_fiber w' !! 1%nat with
      | Some (EffectSlot deps _) =>
          Ok tt (set_fiber (<[1%nat := EffectSlot deps destroy]> (w_fiber w')) w')
      | _ => Throw TypeError w'
      end
  | Throw e w' => Throw e w'
  end.
Proof.
  hooks. unfold run_create, bind. cbn [run_closure].
  destruct (useLocalStorage_effect _ _ _) as [d w'|e w']; [|reflexivity].
  destruct (w_fiber w' !! 1%nat) as [[| |deps ?]|]; reflexivity.
Qed.
Local Transparent useLocalStorage_effect.

(** A later render only stores the links it was given. *)
Lemma useLocalStorage_rerender key key' state prev h c sch pr sto wn :
  render (useLocalStorage key' state)
    (Build_world h (storage_fiber prev key true) c sch true pr sto wn) =
  Ok tt (Build_world h (storage_fiber state key true) 2 [] true pr sto wn).
Proof. reflexivity. Qed.

Local Opaque save_links.

Lemma useLocalStorage_unmount key last h c sch pr sto wn :
  unmount (Build_world h (storage_fiber last key true) c sch true pr sto wn) =
  match save_links key last
          (Build_world h (storage_fiber last key true) c sch true pr sto wn) with
  | Ok _ w1 =>
      Ok tt (set_mounted false
               (set_fiber (<[1%nat := EffectSlot (Some []) None]> (w_fiber w1)) w1))
  | Throw e w1 => Throw e (set_mounted false w1)
  end.
Proof.
  unfold unmount, storage_fiber.
  cbn [w_mounted w_fiber List.length seq forM_].
  unfold run_destroy, write_slot, modify, bind, ret. cbn.
  unfold useLocalStorage_destroy, current_links, read_ref, bind, ret. cbn.
  destruct (save_links key last _) as [[] w1|e w1]; reflexivity.
Qed.
Local Transparent save_links.

Lemma set_heap_same w : set_heap (w_heap w) w = w.
Proof. destruct w; reflexivity. Qed.

Lemma forM_frame {A} (l : list A) (f : A -> M world unit) w w' :
  (forall a u w1, In a l -> f a w = Ok u w1 -> w1 = w) ->
  forM_ l f w = Ok tt w' -> w' = w.
Proof.
  revert w'. induction l as [|a l IH]; intros w' Hf; simpl.
  - intros [= <-]. reflexivity.
  - intros H. apply bind_Ok_inv in H as (u & w1 & Ha & Hl).
    apply Hf in Ha as ->; [|now left].
    apply IH in Hl; [exact Hl|]. intros b u' w2 Hb. apply Hf. now right.
Qed.

(** On an instance that has no state cell, a successful [Link.setValues]
    has set nothing. *)
Lemma Link_setValues_frame links v w w' :
  no_state_cell w -> w_mounted w = true ->
  Link_setValues links v w = Ok tt w' -> w' = w.
Proof.
  intros Hns Hm. destruct v as [| | | | |l]; simpl; try (intros [= <-]; reflexivity).
  unfold bind at 1, in_heap, load.
  destruct (w_heap w !! l) as [o|]; [|discriminate].
  rewrite set_heap_same. destruct o as [props|items].
  - apply forM_frame. intros [k lk] u w1 _. cbn [fst snd].
    destruct (has_prop k props); [|intros [= _ <-]; reflexivity].
    unfold link_set. intros H.
    apply call_setter_effect in H as [-> | [(Hm' & _) | (_ & cell & st & q & Hc & _)]];
      [reflexivity | congruence | now apply Hns in Hc].
  - intros [= <-]. reflexivity.
Qed.

Lemma Link_setValues_empty_object links l w :
  w_heap w !! l = Some (OObject []) ->
  Link_setValues links (VRef l) w = Ok tt w.
Proof.
  intros Hl. simpl. unfold bind at 1, in_heap, load. rewrite Hl, set_heap_same.
  induction links as [|kl links IH]; simpl; [reflexivity|].
  unfold bind. cbn [ret]. exact IH.
Qed.

Lemma parse_empty_object h :
  JSON.parse "{}" h =
  Ok (VRef (fresh (dom h))) (<[fresh (dom h) := OObject []]> h).
Proof. reflexivity. Qed.

Lemma or_default_absent (item : option string) :
  item = None \/ item = Some EmptyString -> or_default item "{}" = "{}".
Proof. intros [-> | ->]; reflexivity. Qed.

Lemma or_default_present text :
  text <> EmptyString -> or_default (Some text) "{}" = text.
Proof.
  intros H. unfold or_default. destruct (String.eqb_spec text EmptyString); congruence.
Qed.

(** C8 (as the code has it): the load-on-mount step of [useLocalStorage]
    falls back to the empty object only when nothing, or the empty string,
    is stored under the key; it then applies no value and registers the
    saving destroy function.  When the stored text is not valid JSON,
    [JSON.parse] throws and the error leaves the effect: the mounting
    render fails with it, nothing is applied and no destroy function is
    registered. *)
Theorem load_on_mount_fallback_and_failure key state h sto :
  (sto !! key = None \/ sto !! key = Some EmptyString ->
   render (useLocalStorage key state) (fresh_world h sto) =
   Ok tt (Build_world (<[fresh (dom h) := OObject []]> h)
                      (storage_fiber state key true) 2 [] true [] sto 0)) /\
  (forall text e,
      sto !! key = Some text -> text <> EmptyString ->
      JSON.parse_text text = inl e ->
      render (useLocalStorage key state) (fresh_world h sto) =
      Throw e (Build_world h [RefSlot (RLinks state); EffectSlot (Some []) None]
                           2 [] true [] sto 0)).
Proof.
  split.
  - intros Habs. rewrite useLocalStorage_mount.
    unfold useLocalStorage_effect, bind at 1, getItem, gets.
    cbn [w_storage]. unfold bind at 1.
    rewrite (or_default_absent _ Habs).
    unfold in_heap. cbn [w_heap]. rewrite parse_empty_object.
    unfold bind at 1, current_links, bind at 1, read_ref.
    cbn [set_heap w_fiber lookup list_lookup ret w_heap w_cursor w_scheduled
         w_mounted w_promises w_storage w_warnings].
    unfold bind at 1. rewrite Link_setValues_empty_object
      by (cbn [w_heap]; apply lookup_insert_eq).
    reflexivity.
  - intros text e Hs Hne Hp. rewrite useLocalStorage_mount.
    unfold useLocalStorage_effect, bind at 1, getItem, gets.
    cbn [w_storage]. unfold bind at 1. rewrite Hs, (or_default_present _ Hne).
    unfold in_heap, JSON.parse. rewrite Hp. reflexivity.
Qed.

Lemma load_on_mount_fallback_and_failure_witness :
  render (useLocalStorage "K" []) (fresh_world ∅ ∅) =
  Ok tt (Build_world (<[fresh (dom (∅ : heap)) := OObject []]> ∅)
                     (storage_fiber [] "K" true) 2 [] true [] ∅ 0) /\
  render (useLocalStorage "K" []) (fresh_world ∅ {[ "K" := "[1,2" ]}) =
  Throw SyntaxError
    (Build_world ∅ [RefSlot (RLinks []); EffectSlot (Some []) None]
                 2 [] true [] {[ "K" := "[1,2" ]} 0).
Proof.
  split.
  - apply (proj1 (load_on_mount_fallback_and_failure "K" [] ∅ ∅)).
    left. reflexivity.
  - apply (proj2 (load_on_mount_fallback_and_failure "K" [] ∅ {[ "K" := "[1,2" ]})
             "[1,2" SyntaxError).
    + vm_compute. reflexivity.
    + discriminate.
    + vm_compute. reflexivity.
Defined.

(** C8 (as stated) fails: with the malformed text [{oops] stored under the
    key, the mounting render of [useLocalStorage] throws a [SyntaxError]
    instead of falling back to the empty object. *)
Lemma malformed_storage_is_fatal :
  exists w,
    render (useLocalStorage "K" [("a", UseStateLink (VNum 0) (StateSetter 0))])
           (fresh_world ∅ {[ "K" := "{oops" ]}) = Throw SyntaxError w.
Proof. eexists. vm_compute. reflexivity. Qed.

Lemma storage_fiber_no_state_cell h links d c sch m pr sto wn :
  no_state_cell
    (Build_world h [RefSlot (RLinks links); EffectSlot (Some []) d] c sch m pr sto wn).
Proof. intros [|[|cell]] st q; discriminate. Qed.

(** A mounting render that succeeds leaves the links in the ref and the
    saving destroy function in the effect slot; it has written nothing to
    the storage. *)
Lemma useLocalStorage_mount_ok key state h sto u w :
  render (useLocalStorage key state) (fresh_world h sto) = Ok u w ->
  exists h', w = Build_world h' (storage_fiber state key true) 2 [] true [] sto 0.
Proof.
  rewrite useLocalStorage_mount.
  unfold useLocalStorage_effect, bind at 1, getItem, gets. cbn [w_storage].
  unfold bind at 1, in_heap. cbn [w_heap].
  destruct (JSON.parse _ h) as [v h'|e h']; [|discriminate].
  unfold bind at 1, current_links, bind at 1, read_ref.
  cbn [set_heap w_fiber lookup list_lookup ret w_heap w_cursor w_scheduled
       w_mounted w_promises w_storage w_warnings].
  unfold bind at 1.
  destruct (Link_setValues state v _) as [[] w1|e w1] eqn:Hs; [|discriminate].
  apply Link_setValues_frame in Hs as ->;
    [|apply storage_fiber_no_state_cell | reflexivity].
  cbn. intros [= _ <-]. eauto.
Qed.

Lemma last_cons_default {X} (x d : X) l : List.last (x :: l) d = List.last l x.
Proof.
  revert x d. induction l as [|y l IH]; intros x d; [reflexivity|].
  change (List.last (x :: y :: l) d) with (List.last (y :: l) d).
  rewrite IH. symmetry. apply IH.
Qed.

Lemma useLocalStorage_rerenders key states :
  forall prev h c sch pr sto wn outs w,
    run (useLocalStorage key) (map Render states)
        (Build_world h (storage_fiber prev key true) c sch true pr sto wn)
    = Ok outs w ->
    exists c' sch',
      w = Build_world h (storage_fiber (List.last states prev) key true)
                      c' sch' true pr sto wn.
Proof.
  induction states as [|s states IH]; intros prev h c sch pr sto wn outs w.
  - cbn [map]. rewrite run_nil. intros [= _ <-]. simpl. eauto.
  - cbn [map]. rewrite run_cons. unfold step at 1, bind at 1.
    cbn [w_mounted]. rewrite useLocalStorage_rerender. cbn [ret].
    destruct (run _ _ _) as [os w2|] eqn:Hr; [|discriminate].
    intros [= _ <-]. apply IH in Hr as (c' & sch' & ->).
    exists c', sch'. now rewrite last_cons_default.
Qed.

(** C10: after any sequence of renders, the teardown of [useLocalStorage]
    saves the links of the last render: what the teardown does to the
    storage and the heap is what saving the last render's links under the
    key does, whatever links the earlier renders, the mounting one
    included, were given. *)
Theorem teardown_saves_last_render key states last h sto outs w w1 :
  run (useLocalStorage key) (map Render (states ++ [last])) (fresh_world h sto)
  = Ok outs w ->
  save_links key last w = Ok tt w1 ->
  exists w', unmount w = Ok tt w' /\
             w_storage w' = w_storage w1 /\
             w_heap w' = w_heap w1 /\
             w_mounted w' = false.
Proof.
  intros Hrun Hsave.
  assert (Hw : exists h' c sch,
             w = Build_world h' (storage_fiber last key true) c sch true [] sto 0).
  { destruct states as [|s0 states]; cbn [app map] in Hrun;
      rewrite run_cons in Hrun; unfold step at 1, bind at 1 in Hrun;
      cbn [w_mounted fresh_world] in Hrun.
    - destruct (render _ _) as [u w0|] eqn:Hm; [|discriminate].
      apply useLocalStorage_mount_ok in Hm as (h' & ->).
      cbn [ret] in Hrun. rewrite run_nil in Hrun. injection Hrun as _ <-. eauto.
    - destruct (render _ _) as [u w0|] eqn:Hm; [|discriminate].
      apply useLocalStorage_mount_ok in Hm as (h' & ->).
      cbn [ret] in Hrun.
      destruct (run _ _ _) as [os w2|] eqn:Hr; [|discriminate].
      injection Hrun as _ <-.
      apply useLocalStorage_rerenders in Hr as (c' & sch' & ->).
      rewrite last_last. eauto. }
  destruct Hw as (h' & c & sch & ->).
  rewrite useLocalStorage_unmount, Hsave.
  eexists. split; [reflexivity|]. destruct w1. cbn. auto.
Qed.

Lemma teardown_saves_last_render_witness :
  exists outs w w1 w',
    run (useLocalStorage "K")
        (map Render ([[("a", UseStateLink (VNum 1) (StateSetter 5))]] ++
                     [[("a", UseStateLink (VNum 2) (StateSetter 5))]]))
        (fresh_world ∅ ∅) = Ok outs w /\
    save_links "K" [("a", UseStateLink (VNum 2) (StateSetter 5))] w = Ok tt w1 /\
    unmount w = Ok tt w' /\
    w_storage w' !! "K" = Some ("{" ++ JSON.quote "a" ++ ":2}")%string.
Proof.
  pose (w := Build_world (<[fresh (dom (∅ : heap)) := OObject []]> ∅)
               (storage_fiber [("a", UseStateLink (VNum 2) (StateSetter 5))] "K" true)
               2 [] true [] ∅ 0).
  destruct (save_links "K" [("a", UseStateLink (VNum 2) (StateSetter 5))] w)
    as [[] w1|e w1] eqn:Hs; [|vm_compute in Hs; discriminate].
  assert (Hrun : run (useLocalStorage "K")
        (map Render ([[("a", UseStateLink (VNum 1) (StateSetter 5))]] ++
                     [[("a", UseStateLink (VNum 2) (StateSetter 5))]]))
        (fresh_world ∅ ∅) = Ok [Some tt; Some tt] w) by (vm_compute; reflexivity).
  destruct (teardown_saves_last_render "K" _ _ ∅ ∅ _ w w1 Hrun Hs)
    as (w' & Hu & Hsto & _ & _).
  exists [Some tt; Some tt], w, w1, w'.
  split; [exact Hrun|]. split; [exact Hs|]. split; [exact Hu|].
  rewrite Hsto. vm_compute in Hs. injection Hs as <-. vm_compute. reflexivity.
Defined.

(** ** Bound links *)

Lemma bound_mount safe s h sto :
  render (bound safe s) (fresh_world h sto) =
  Ok (UseStateLink (source_value s) (bound_setter safe))
     (Build_world h
        (bound_fiber safe (source_value s) [SetValue (source_value s)]
                     (source_value s))
        (if safe then 4 else 2)%nat [] true [] sto 0).
Proof. destruct safe; reflexivity. Qed.

Lemma same_value_refl v : same_value v v = true.
Proof. unfold same_value. now apply bool_decide_eq_true. Qed.

Lemma same_value_neq a b : a <> b -> same_value a b = false.
Proof. unfold same_value. now apply bool_decide_eq_false. Qed.

(** A later render applies the queued updates; the synchronizing effect
    runs, and queues the source value, exactly when that value is not the
    one it saw last. *)
Lemma bound_rerender safe s st q a h c sch pr sto wn :
  render (bound safe s)
    (Build_world h (bound_fiber safe st q a) c sch true pr sto wn) =
  match flush st q h with
  | Ok st' h' =>
      Ok (UseStateLink st' (bound_setter safe))
         (Build_world h'
            (bound_fiber safe st'
               (if bool_decide (source_value s = a) then []
                else [SetValue (source_value s)])
               (source_value s))
            (if safe then 4 else 2)%nat [] true pr sto wn)
  | Throw e h' =>
      Throw e (Build_world h' (bound_fiber safe st q a) 1 [] true pr sto wn)
  end.
Proof.
  destruct safe; unfold bound, bound_fiber; hooks;
    (destruct (flush st q h) as [st' h'|]; [|reflexivity]);
    cbn; unfold same_value;
    (destruct (bool_decide_reflect (source_value s = a)) as [->|Hne];
     reflexivity).
Qed.

Lemma bound_unmount safe st q a h c sch pr sto wn :
  exists f,
    unmount (Build_world h (bound_fiber safe st q a) c sch true pr sto wn) =
    Ok tt (Build_world h f c sch false pr sto wn).
Proof. destruct safe; eexists; reflexivity. Qed.

Lemma synced_value_snoc s0 tr e :
  synced_value s0 (tr ++ [e]) =
  match e with Render s => source_value s | _ => synced_value s0 tr end.
Proof. unfold synced_value. rewrite fold_left_app. reflexivity. Qed.

Lemma bound_fiber_cell safe st q a cell st0 q0 :
  bound_fiber safe st q a !! cell = Some (StateSlot st0 q0) ->
  cell = O /\ st0 = st /\ q0 = q.
Proof.
  destruct safe; simpl; destruct cell as [|[|[|[|cell]]]]; simpl;
    intros [=]; auto.
Qed.

Lemma bound_fiber_enqueue safe st q a x :
  <[O := StateSlot st (q ++ [x])]> (bound_fiber safe st q a) =
  bound_fiber safe st (q ++ [x]) a.
Proof. destruct safe; reflexivity. Qed.

Lemma bound_step safe s0 tr e w o w' :
  bound_inv safe s0 tr w -> step (bound safe) e w = Ok o w' ->
  bound_inv safe s0 (tr ++ [e]) w'.
Proof.
  unfold bound_inv. intros (Hp & Hf).
  destruct w as [h f c sch m pr sto wn]; simpl in *; subst pr.
  rewrite synced_value_snoc.
  destruct m.
  - destruct (Hf eq_refl) as (st & q & ->). clear Hf.
    destruct e as [s | | p out | l k].
    + unfold step, bind. cbn [w_mounted]. rewrite bound_rerender.
      destruct (flush st q h) as [st' h'|]; [|discriminate].
      intros [= _ <-]. simpl. eauto.
    + unfold step, bind.
      destruct (bound_unmount safe st q (synced_value s0 tr) h c sch [] sto wn)
        as (f' & ->).
      intros [= _ <-]. simpl. split; [reflexivity | discriminate].
    + rewrite step_settle_no_promises by reflexivity.
      intros [= _ <-]. simpl. eauto.
    + intros [_ H]%step_call_inv.
      apply do_call_effect in H
        as [-> | [(Hm & _) | (_ & cell & st0 & q0 & x & Hc & ->)]];
        [simpl; eauto | discriminate |].
      simpl in Hc. apply bound_fiber_cell in Hc as (-> & -> & ->).
      simpl. rewrite bound_fiber_enqueue. eauto.
  - clear Hf. destruct e as [s | | p out | l k].
    + rewrite step_render_unmounted by reflexivity.
      intros [= _ <-]. simpl. split; [reflexivity | discriminate].
    + unfold step, bind. rewrite unmount_unmounted by reflexivity.
      intros [= _ <-]. simpl. split; [reflexivity | discriminate].
    + rewrite step_settle_no_promises by reflexivity.
      intros [= _ <-]. simpl. split; [reflexivity | discriminate].
    + intros [_ H]%step_call_inv.
      apply do_call_effect in H
        as [-> | [(_ & ->) | (Hm & _)]];
        [| | discriminate]; simpl; (split; [reflexivity | discriminate]).
Qed.

Lemma bound_reach safe s0 tr h sto outs w :
  run (bound safe) (Render s0 :: tr) (fresh_world h sto) = Ok outs w ->
  bound_inv safe s0 tr w.
Proof.
  apply (run_mounted_ind (bound safe) (fun tr _ w => bound_inv safe s0 tr w)).
  - unfold step, bind. cbn [w_mounted fresh_world]. rewrite bound_mount.
    intros o w1 [= _ <-]. split; [reflexivity|]. simpl. eauto.
  - intros. eapply bound_step; eauto.
Qed.

(** C6: let a bound link (plain or safe) be mounted, and let [a] be the
    source value of its last render, whatever the caller has [set] locally
    since.  A render with a source whose extracted value differs from [a]
    makes the synchronizing effect queue that value, and the link reads it
    at the following render; a render with a source whose extracted value
    is [a] queues nothing, whichever source object carries the value. *)
Theorem bound_link_follows_source safe s0 tr h sto outs w s l1 w1 :
  run (bound safe) (Render s0 :: tr) (fresh_world h sto) = Ok outs w ->
  w_mounted w = true ->
  render (bound safe s) w = Ok l1 w1 ->
  (source_value s <> synced_value s0 tr ->
   pending_sets w1 = [SetValue (source_value s)] /\
   forall s', source_value s' = source_value s ->
     exists w2,
       render (bound safe s') w1 =
       Ok (UseStateLink (source_value s) (bound_setter safe)) w2 /\
       pending_sets w2 = []) /\
  (source_value s = synced_value s0 tr -> pending_sets w1 = []).
Proof.
  intros Hrun Hm Hr. apply bound_reach in Hrun as (_ & Hf).
  destruct (Hf Hm) as (st & q & Hfib). clear Hf.
  destruct w as [h0 f c sch m pr sto0 wn]; simpl in *; subst m f.
  rewrite bound_rerender in Hr.
  destruct (flush st q h0) as [st' h'|]; [|discriminate].
  injection Hr as _ <-.
  split.
  - intros Hne. rewrite bool_decide_eq_false_2 by exact Hne.
    split; [destruct safe; reflexivity|].
    intros s' Hs'. rewrite bound_rerender. cbn [flush apply_setarg bind ret].
    rewrite Hs', bool_decide_eq_true_2 by reflexivity.
    eexists. split; [reflexivity|]. destruct safe; reflexivity.
  - intros He. rewrite bool_decide_eq_true_2 by exact He.
    destruct safe; reflexivity.
Qed.

Lemma bound_link_follows_source_witness :
  let l := UseStateLink (VNum 1) (StateSetter 0) in
  let tr : list (event source) := [Call l (CallSet (SetValue (VNum 5)))] in
  let s := SourceLink (UseStateLink (VNum 2) (StateSetter 7)) in
  let w := Build_world ∅
             [StateSlot (VNum 1) [SetValue (VNum 1); SetValue (VNum 5)];
              EffectSlot (Some [VNum 1]) None] 2 [] true [] ∅ 0 in
  let w1 := Build_world ∅
              [StateSlot (VNum 5) [SetValue (VNum 2)];
               EffectSlot (Some [VNum 2]) None] 2 [] true [] ∅ 0 in
  exists w2,
    render (bound false (SourceValue (VNum 2))) w1 =
    Ok (UseStateLink (VNum 2) (StateSetter 0)) w2 /\ pending_sets w2 = [].
Proof.
  intros l tr s w w1.
  refine (proj2 (proj1 (bound_link_follows_source false (SourceValue (VNum 1)) tr
            ∅ ∅ [Some l; None] w s (UseStateLink (VNum 5) (StateSetter 0)) w1
            _ _ _) _) (SourceValue (VNum 2)) _).
  - vm_compute. reflexivity.
  - reflexivity.
  - vm_compute. reflexivity.
  - vm_compute. discriminate.
  - reflexivity.
Defined.

(** ** The readiness tracker *)

Lemma useIO_mount f c h sto :
  render (useIO f c) (fresh_world h sto) =
  Ok false (Build_world h (io_fiber VNull [SetFn increment] true c) 4 [] true
                        [started f VNull 1; derived] sto 0).
Proof. reflexivity. Qed.

(** The effect of [useIO] on a mounted instance: one increment is queued
    and two promises are added at the end of the table, the one of the
    started operation, with the [finally] reaction, and the one that
    [finally] returned. *)
Lemma useIO_effect_mounted f v st q cond h c sch pr sto wn :
  useIO_effect f (UseStateLink v io_setter)
    (Build_world h (io_fiber st q true cond) c sch true pr sto wn) =
  Ok None
     (Build_world h (io_fiber st (q ++ [SetFn increment]) true cond) c sch true
        (pr ++ [started f v (S (List.length pr)); derived]) sto wn).
Proof.
  unfold useIO_effect, link_set, io_setter, io_fiber.
  cbn [set call_setter UseStateLink].
  unfold bind, read_ref, dispatch_set_state, call_async, promise_finally,
    new_promise, bind, ret.
  cbn. rewrite length_app. cbn [List.length].
  replace (List.length pr + 1)%nat with (S (List.length pr)) by lia.
  rewrite <- app_assoc. cbn [app].
  rewrite (list_lookup_middle pr _ _ (List.length pr) eq_refl).
  cbn [p_origin p_settled p_reactions app].
  rewrite insert_app_r_alt by lia. rewrite Nat.sub_diag. reflexivity.
Qed.

Local Opaque useIO_effect.

(** A later render of [useIO]: the queued updates are applied, the result
    is the readiness of the counter, and an operation is dispatched exactly
    when the dependencies changed. *)
Lemma useIO_rerender f c st q cond h cur sch pr sto wn :
  render (useIO f c)
    (Build_world h (io_fiber st q true cond) cur sch true pr sto wn) =
  match flush st q h with
  | Ok st' h' =>
      Ok (readiness st')
         (if are_hook_inputs_equal c cond
          then Build_world h' (io_fiber st' [] true c) 4 [] true pr sto wn
          else Build_world h' (io_fiber st' [SetFn increment] true c) 4 [] true
                 (pr ++ [started f st' (S (List.length pr)); derived]) sto wn)
  | Throw e h' =>
      Throw e (Build_world h' (io_fiber st q true cond) 1 [] true pr sto wn)
  end.
Proof.
  unfold io_fiber. hooks.
  destruct (flush st q h) as [st' h'|]; [|reflexivity].
  cbn. destruct (are_hook_inputs_equal c cond); [reflexivity|].
  cbn. unfold run_create, bind. cbn [run_closure].
  pose proof (useIO_effect_mounted f st' st' [] c h' 4 [] pr sto wn) as E.
  unfold io_fiber, io_setter in E. cbn [app] in E.
  rewrite E. reflexivity.
Qed.
Local Transparent useIO_effect.

Lemma useIO_unmount st q cond h c sch pr sto wn :
  unmount (Build_world h (io_fiber st q true cond) c sch true pr sto wn) =
  Ok tt (Build_world h (io_fiber st q false cond) c sch false pr sto wn).
Proof. reflexivity. Qed.

Lemma mark_settled_mark p o w :
  mark_settled p o w = set_promises (mark p o (w_promises w)) w.
Proof.
  unfold mark_settled, mark. destruct (w_promises w !! p); [reflexivity|].
  destruct w; reflexivity.
Qed.

(** Settling the promise of a started operation: the promise and the one
    that [finally] returned take the outcome, and the reaction queues one
    decrement if the instance is mounted and does nothing otherwise. *)
Lemma useIO_settle f v p o st q m cond h c sch pr sto wn :
  pr !! p = Some (started f v (S p)) ->
  settle p o (Build_world h (io_fiber st q m cond) c sch m pr sto wn) =
  Ok tt (Build_world h
           (io_fiber st (if m then q ++ [SetFn decrement] else q) m cond)
           c sch m (mark (S p) o (mark p o pr)) sto wn).
Proof.
  intros Hp. unfold settle. cbn [w_promises]. rewrite Hp.
  cbn [started p_origin p_settled p_reactions forM_].
  rewrite mark_settled_mark. wsimpl.
  unfold bind at 1, run_reaction. cbn [fst snd run_closure].
  unfold bind at 1, link_set, io_setter. cbn [set UseStateLink call_setter].
  unfold bind at 1, read_ref, io_fiber. wsimpl.
  cbn [lookup list_lookup].
  destruct m; cbn [ref_truthy truthy].
  - unfold dispatch_set_state. wsimpl. cbn [lookup list_lookup].
    cbn [ret]. rewrite mark_settled_mark. reflexivity.
  - cbn [ret]. rewrite mark_settled_mark. reflexivity.
Qed.

Lemma settle_not_outstanding p o w x :
  w_promises w !! p = Some x -> is_outstanding x = false ->
  settle p o w = Ok tt w.
Proof.
  intros Hp Hx. unfold settle. rewrite Hp. unfold is_outstanding in Hx.
  destruct (p_origin x), (p_settled x); try reflexivity. discriminate.
Qed.

Lemma settle_absent p o w :
  w_promises w !! p = None -> settle p o w = Ok tt w.
Proof. intros Hp. unfold settle. now rewrite Hp. Qed.

(** *** Counting the outstanding operations *)

Lemma count_outstanding_app a b :
  count_outstanding (a ++ b) = (count_outstanding a + count_outstanding b)%nat.
Proof. unfold count_outstanding. now rewrite List.filter_app, length_app. Qed.

Lemma count_outstanding_insert pr i x y :
  pr !! i = Some x ->
  (count_outstanding (<[i := y]> pr) + (if is_outstanding x then 1 else 0)
   = count_outstanding pr + (if is_outstanding y then 1 else 0))%nat.
Proof.
  unfold count_outstanding.
  revert i. induction pr as [|z pr IH]; intros [|i]; simpl; try discriminate.
  - intros [= ->]. destruct (is_outstanding x), (is_outstanding y); simpl; lia.
  - intros H. specialize (IH _ H). destruct (is_outstanding z); simpl; lia.
Qed.

Lemma mark_present p o pr x :
  pr !! p = Some x ->
  mark p o pr =
  <[p := {| p_origin := p_origin x; p_settled := Some o; p_reactions := [] |}]> pr.
Proof. intros H. unfold mark. now rewrite H. Qed.

Lemma is_outstanding_settled f o r :
  is_outstanding {| p_origin := f; p_settled := Some o; p_reactions := r |} = false.
Proof. unfold is_outstanding. simpl. now destruct f. Qed.

Lemma is_outstanding_origin x : is_outstanding x = true -> p_origin x <> None.
Proof. unfold is_outstanding. destruct (p_origin x); [discriminate | discriminate]. Qed.

(** The table after the settlement of an outstanding operation. *)
Lemma settled_table p o pr x y :
  pr !! p = Some x -> is_outstanding x = true ->
  pr !! S p = Some y -> p_origin y = None ->
  let pr' := mark (S p) o (mark p o pr) in
  S (count_outstanding pr') = count_outstanding pr /\
  (forall i, i <> p -> i <> S p -> pr' !! i = pr !! i) /\
  (exists x', pr' !! p = Some x' /\ p_settled x' = Some o /\
              p_origin x' = p_origin x) /\
  (exists y', pr' !! S p = Some y' /\ p_settled y' = Some o /\
              p_origin y' = None).
Proof.
  intros Hp Hx Hd Hy pr'. subst pr'.
  rewrite (mark_present p o pr x Hp).
  assert (Hd' : <[p := {| p_origin := p_origin x; p_settled := Some o;
                          p_reactions := [] |}]> pr !! S p = Some y).
  { rewrite list_lookup_insert_ne by lia. exact Hd. }
  rewrite (mark_present (S p) o _ y Hd').
  split; [|split; [|split]].
  - pose proof (count_outstanding_insert _ (S p) y
                  {| p_origin := p_origin y; p_settled := Some o;
                     p_reactions := [] |} Hd') as H1.
    pose proof (count_outstanding_insert pr p x
                  {| p_origin := p_origin x; p_settled := Some o;
                     p_reactions := [] |} Hp) as H2.
    rewrite !is_outstanding_settled in *. rewrite Hx in H2.
    assert (is_outstanding y = false) as Hy'.
    { unfold is_outstanding. now rewrite Hy. }
    rewrite Hy' in H1. lia.
  - intros i Hi1 Hi2. now rewrite !list_lookup_insert_ne by lia.
  - exists {| p_origin := p_origin x; p_settled := Some o; p_reactions := [] |}.
    split; [|split; reflexivity].
    rewrite list_lookup_insert_ne by lia.
    apply list_lookup_insert_eq. now apply lookup_lt_Some in Hp.
  - exists {| p_origin := p_origin y; p_settled := Some o; p_reactions := [] |}.
    split; [|split; [reflexivity | exact Hy]].
    apply list_lookup_insert_eq. rewrite length_insert.
    now apply lookup_lt_Some in Hd.
Qed.

Lemma wf_promises_settled p o pr x y :
  wf_promises pr ->
  pr !! p = Some x -> is_outstanding x = true ->
  pr !! S p = Some y -> p_origin y = None ->
  wf_promises (mark (S p) o (mark p o pr)).
Proof.
  intros Hwf Hp Hx Hd Hy.
  destruct (settled_table p o pr x y Hp Hx Hd Hy)
    as (_ & Hother & (x' & Hp' & Hxs & _) & (y' & Hd' & Hys & Hyo)).
  intros i z Hi Hz.
  assert (i <> p).
  { intros ->. rewrite Hp' in Hi. injection Hi as <-.
    unfold is_outstanding in Hz. rewrite Hxs in Hz. now destruct (p_origin x'). }
  assert (i <> S p).
  { intros ->. rewrite Hd' in Hi. injection Hi as <-.
    unfold is_outstanding in Hz. rewrite Hys in Hz. now destruct (p_origin y'). }
  rewrite Hother in Hi by assumption.
  destruct (Hwf i z Hi Hz) as (Hst & y2 & Hy2 & Ho2). split; [exact Hst|].
  destruct (decide (S i = S p)) as [E|NE]; [lia|].
  destruct (decide (S i = p)) as [E|NE'].
  - exfalso. rewrite E, Hp in Hy2. injection Hy2 as <-.
    now apply is_outstanding_origin in Hx.
  - exists y2. now rewrite Hother.
Qed.

Lemma wf_promises_dispatch pr f v :
  wf_promises pr ->
  wf_promises (pr ++ [started f v (S (List.length pr)); derived]).
Proof.
  intros Hwf i z Hi Hz.
  destruct (decide (i < List.length pr)%nat) as [Hlt|Hge].
  - rewrite lookup_app_l in Hi by exact Hlt.
    destruct (Hwf i z Hi Hz) as (Hst & y & Hy & Ho). split; [exact Hst|].
    exists y. split; [|exact Ho]. now apply lookup_app_l_Some.
  - rewrite lookup_app_r in Hi by lia.
    destruct (i - List.length pr)%nat as [|[|k]] eqn:E; simpl in Hi.
    + injection Hi as <-. assert (i = List.length pr) as -> by lia.
      split; [eauto|]. exists derived. split; [|reflexivity].
      rewrite lookup_app_r by lia.
      replace (S (List.length pr) - List.length pr)%nat with 1%nat by lia.
      reflexivity.
    + injection Hi as <-. discriminate.
    + discriminate.
Qed.

Lemma count_outstanding_dispatch pr f v :
  count_outstanding (pr ++ [started f v (S (List.length pr)); derived]) =
  S (count_outstanding pr).
Proof. rewrite count_outstanding_app. unfold count_outstanding at 2. simpl. lia. Qed.

(** *** The counter *)

Lemma holds_increment st q n :
  holds st q n -> holds st (q ++ [SetFn increment]) (n + 1).
Proof.
  intros H h. rewrite flush_snoc, H. cbn [apply_setarg].
  unfold increment, js_or, js_add. cbn [truthy].
  destruct (Z.eqb_spec n 0) as [->|Hn]; reflexivity.
Qed.

Lemma holds_decrement st q n :
  holds st q n -> holds st (q ++ [SetFn decrement]) (n - 1).
Proof. intros H h. rewrite flush_snoc, H. reflexivity. Qed.

Lemma holds_flushed n : holds (VNum n) [] n.
Proof. intros h. reflexivity. Qed.

Lemma readiness_num n : readiness (VNum n) = Z.eqb n 0.
Proof. unfold readiness, truthy. now rewrite negb_involutive. Qed.

(** *** Reachable states of the tracker *)

Lemma io_step e w o w' :
  io_inv w -> is_call e = false -> step io e w = Ok o w' -> io_inv w'.
Proof.
  unfold io_inv. intros (st & q & cond & Hf & Hwf & Hh) Hc.
  destruct w as [h f c sch m pr sto wn]; unfold outstanding in *;
    simpl in *; subst f.
  fold (count_outstanding pr) in Hh.
  destruct e as [[fn cn] | | p out | l k]; [| | |discriminate].
  - destruct m.
    + unfold step, bind, io. cbn [w_mounted fst snd].
      rewrite useIO_rerender, (Hh eq_refl h).
      destruct (are_hook_inputs_equal cn cond); intros [= _ <-]; simpl.
      * exists (VNum (Z.of_nat (count_outstanding pr))), [], cn.
        split; [reflexivity|]. split; [exact Hwf|]. intros _. apply holds_flushed.
      * exists (VNum (Z.of_nat (count_outstanding pr))), [SetFn increment], cn.
        split; [reflexivity|]. split; [now apply wf_promises_dispatch|].
        intros _. fold (count_outstanding (pr ++
          [started fn (VNum (Z.of_nat (count_outstanding pr)))
                   (S (List.length pr)); derived])).
        rewrite count_outstanding_dispatch, Nat2Z.inj_succ.
        apply (holds_increment _ []), holds_flushed.
    + rewrite step_render_unmounted by reflexivity. intros [= _ <-]. simpl.
      exists st, q, cond. auto.
  - unfold step, bind. destruct m.
    + rewrite useIO_unmount. intros [= _ <-]. simpl.
      exists st, q, cond. split; [reflexivity|]. split; [exact Hwf|discriminate].
    + rewrite unmount_unmounted by reflexivity. intros [= _ <-]. simpl.
      exists st, q, cond. auto.
  - unfold step, bind.
    destruct (pr !! p) as [x|] eqn:Hp.
    2:{ rewrite settle_absent by exact Hp. intros [= _ <-]. simpl.
        exists st, q, cond. auto. }
    destruct (is_outstanding x) eqn:Hx.
    2:{ rewrite (settle_not_outstanding p out _ x) by assumption.
        intros [= _ <-]. simpl. exists st, q, cond. auto. }
    destruct (Hwf p x Hp Hx) as ((fn & v & ->) & y & Hy & Ho).
    rewrite (useIO_settle fn v) by exact Hp. intros [= _ <-]. simpl.
    destruct (settled_table p out pr _ y Hp Hx Hy Ho) as (Hcnt & _).
    eexists st, _, cond. split; [reflexivity|].
    split; [now apply (wf_promises_settled p out pr (started fn v (S p)) y)|].
    intros ->. fold (count_outstanding (mark (S p) out (mark p out pr))).
    replace (Z.of_nat (count_outstanding (mark (S p) out (mark p out pr))))
      with (Z.of_nat (count_outstanding pr) - 1) by lia.
    apply holds_decrement. now apply Hh.
Qed.

Lemma no_calls_snoc {P} (tr : list (event P)) e :
  no_calls (tr ++ [e]) = no_calls tr && negb (is_call e).
Proof.
  unfold no_calls. rewrite forallb_app. simpl. now rewrite andb_true_r.
Qed.

Lemma io_reach f c tr h sto outs w :
  run io (Render (f, c) :: tr) (fresh_world h sto) = Ok outs w ->
  no_calls tr = true -> io_inv w.
Proof.
  apply (run_mounted_ind io (fun tr _ w => no_calls tr = true -> io_inv w)).
  - unfold step, bind, io. cbn [w_mounted fresh_world fst snd].
    rewrite useIO_mount. intros o w1 [= _ <-] _.
    exists VNull, [SetFn increment], c. split; [reflexivity|].
    split.
    + apply (wf_promises_dispatch [] f VNull). intros i x Hi. discriminate.
    + intros _ h'. reflexivity.
  - intros tr0 outs0 e w0 o w' IH Hs Hn.
    rewrite no_calls_snoc in Hn. apply andb_true_iff in Hn as (Hn & He).
    apply negb_true_iff in He. eapply io_step; eauto.
Qed.

(** *** Stepping a mounted tracker *)

Lemma run_app {P A} (c : P -> M world A) t1 t2 w :
  run c (t1 ++ t2) w =
  match run c t1 w with
  | Ok o1 w1 =>
      match run c t2 w1 with
      | Ok o2 w2 => Ok (o1 ++ o2) w2
      | Throw e w2 => Throw e w2
      end
  | Throw e w1 => Throw e w1
  end.
Proof.
  revert w. induction t1 as [|e t1 IH]; intros w.
  - cbn [app]. rewrite run_nil. destruct (run c t2 w); reflexivity.
  - cbn [app]. rewrite !run_cons. destruct (step c e w) as [o w1|]; [|reflexivity].
    rewrite IH. destruct (run c t1 w1) as [o1 w2|]; [|reflexivity].
    destruct (run c t2 w2); reflexivity.
Qed.

Lemma are_hook_inputs_equal_refl c : are_hook_inputs_equal c c = true.
Proof.
  induction c as [|v c IH]; [reflexivity|]. simpl.
  now rewrite same_value_refl, IH.
Qed.

Lemma io_at_mount f c h sto :
  exists w, step io (Render (f, c)) (fresh_world h sto) = Ok (Some false) w /\
            io_at 1 c [started f VNull 1; derived] w.
Proof.
  unfold step, bind, io. cbn [w_mounted fresh_world fst snd].
  rewrite useIO_mount. eexists. split; [reflexivity|].
  exists VNull, [SetFn increment], h, 4%nat, [], sto, 0%nat.
  split; [reflexivity|]. intros h'. reflexivity.
Qed.

Lemma io_at_render f c n cond pr w :
  io_at n cond pr w ->
  exists w',
    step io (Render (f, c)) w = Ok (Some (Z.eqb n 0)) w' /\
    if are_hook_inputs_equal c cond
    then io_at n c pr w'
    else io_at (n + 1) c
           (pr ++ [started f (VNum n) (S (List.length pr)); derived]) w'.
Proof.
  intros (st & q & h & cur & sch & sto & wn & -> & Hh).
  unfold step, bind, io. cbn [w_mounted fst snd].
  rewrite useIO_rerender, (Hh h), readiness_num.
  eexists. split; [reflexivity|].
  destruct (are_hook_inputs_equal c cond).
  - exists (VNum n), [], h, 4%nat, [], sto, wn.
    split; [reflexivity | apply holds_flushed].
  - exists (VNum n), [SetFn increment], h, 4%nat, [], sto, wn.
    split; [reflexivity|]. apply (holds_increment _ []), holds_flushed.
Qed.

Lemma io_at_idle f c n pr k :
  forall w, io_at n c pr w ->
  exists w',
    run io (repeat (Render (f, c)) k) w = Ok (repeat (Some (Z.eqb n 0)) k) w' /\
    io_at n c pr w'.
Proof.
  induction k as [|k IH]; intros w Hw.
  - exists w. cbn [repeat]. rewrite run_nil. auto.
  - cbn [repeat]. rewrite run_cons.
    destruct (io_at_render f c n c pr w Hw) as (w1 & -> & H1).
    rewrite are_hook_inputs_equal_refl in H1.
    destruct (IH w1 H1) as (w2 & -> & H2). eauto.
Qed.

Lemma io_at_settle f v p o n cond pr w :
  io_at n cond pr w ->
  pr !! p = Some (started f v (S p)) ->
  exists w',
    step io (Settle p o) w = Ok None w' /\
    io_at (n - 1) cond (mark (S p) o (mark p o pr)) w'.
Proof.
  intros (st & q & h & cur & sch & sto & wn & -> & Hh) Hp.
  unfold step, bind. rewrite (useIO_settle f v) by exact Hp.
  eexists. split; [reflexivity|].
  exists st, (q ++ [SetFn decrement]), h, cur, sch, sto, wn.
  split; [reflexivity | now apply holds_decrement].
Qed.

(** C3: two operations dispatched one after the other (the second by a
    render whose dependencies changed, before the first has settled), then
    settled in either order, with any number of renders in between: every
    render before the second settlement returns [false], every render after
    it returns [true].  The promises of the two operations are entries 0
    and 2 of the table; entries 1 and 3 are the ones [finally] returned. *)
Theorem useIO_two_overlapping_operations
  f1 c1 f2 c2 o1 o2 first second k1 k2 k3 h sto :
  are_hook_inputs_equal c2 c1 = false ->
  (first = 0%nat /\ second = 2%nat) \/ (first = 2%nat /\ second = 0%nat) ->
  exists w,
    run io
      ([Render (f1, c1); Render (f2, c2)] ++
       repeat (Render (f2, c2)) k1 ++ [Settle first o1] ++
       repeat (Render (f2, c2)) k2 ++ [Settle second o2] ++
       repeat (Render (f2, c2)) k3)
      (fresh_world h sto) =
    Ok ([Some false; Some false] ++
        repeat (Some false) k1 ++ [None] ++
        repeat (Some false) k2 ++ [None] ++
        repeat (Some true) k3) w.
Proof.
  intros Hc Horder.
  destruct (io_at_mount f1 c1 h sto) as (w1 & E1 & A1).
  destruct (io_at_render f2 c2 _ _ _ _ A1) as (w2 & E2 & A2).
  rewrite Hc in A2. cbn [app List.length Z.add Pos.add Z.eqb] in A2, E2.
  destruct (io_at_idle f2 c2 _ _ k1 _ A2) as (w3 & E3 & A3).
  assert (exists w4 pr4,
             step io (Settle first o1) w3 = Ok None w4 /\ io_at 1 c2 pr4 w4 /\
             exists f v, pr4 !! second = Some (started f v (S second)))
    as (w4 & pr4 & E4 & A4 & f & v & Hsecond).
  { destruct Horder as [(-> & ->) | (-> & ->)].
    - destruct (io_at_settle f1 VNull 0 o1 _ _ _ _ A3 eq_refl) as (w4 & E4 & A4).
      exists w4. eexists. split; [exact E4|]. split; [exact A4|].
      exists f2, (VNum 1). reflexivity.
    - destruct (io_at_settle f2 (VNum 1) 2 o1 _ _ _ _ A3 eq_refl) as (w4 & E4 & A4).
      exists w4. eexists. split; [exact E4|]. split; [exact A4|].
      exists f1, VNull. reflexivity. }
  destruct (io_at_idle f2 c2 _ _ k2 _ A4) as (w5 & E5 & A5).
  destruct (io_at_settle f v second o2 _ _ _ _ A5 Hsecond) as (w6 & E6 & A6).
  destruct (io_at_idle f2 c2 _ _ k3 _ A6) as (w7 & E7 & A7).
  exists w7. cbn [app].
  rewrite run_cons, E1. cbv beta iota.
  rewrite run_cons, E2. cbv beta iota.
  rewrite run_app, E3. cbv beta iota. cbn [app].
  rewrite run_cons, E4. cbv beta iota.
  rewrite run_app, E5. cbv beta iota. cbn [app].
  rewrite run_cons, E6. cbv beta iota.
  rewrite E7. reflexivity.
Qed.

Lemma useIO_two_overlapping_operations_witness :
  exists w,
    run io [Render (7%nat, [VNum 1]); Render (7%nat, [VNum 2]);
            Render (7%nat, [VNum 2]);
            Settle 2 (Fulfilled VNull);
            Render (7%nat, [VNum 2]);
            Settle 0 (Rejected TypeError);
            Render (7%nat, [VNum 2]); Render (7%nat, [VNum 2])]
      (fresh_world ∅ ∅) =
    Ok [Some false; Some false; Some false; None; Some false; None;
        Some true; Some true] w.
Proof.
  apply (useIO_two_overlapping_operations 7%nat [VNum 1] 7%nat [VNum 2]
           (Fulfilled VNull) (Rejected TypeError) 2%nat 0%nat 1%nat 1%nat 2%nat
           ∅ ∅).
  - reflexivity.
  - right. split; reflexivity.
Defined.

Lemma counter_holds h st q m cond cur sch pr sto wn n :
  holds st q n ->
  counter (Build_world h (io_fiber st q m cond) cur sch m pr sto wn)
  = Some (VNum n).
Proof. intros H. unfold counter. cbn. now rewrite H. Qed.

(** C5 (as the code has it): when the promise of an operation that the
    tracker dispatched settles, with any outcome, the reaction registered
    by [finally] runs once: the promise and the one that [finally] returned
    both carry the outcome as it is, one operation fewer is outstanding,
    and settling the promise again changes nothing.  While the component is
    mounted the counter goes down by exactly one; after the teardown the
    guard of the Safe Link drops the decrement: the counter stays as it was
    and the host reports nothing. *)
Theorem tracker_settlement f c tr h sto outs w p x o :
  run io (Render (f, c) :: tr) (fresh_world h sto) = Ok outs w ->
  no_calls tr = true ->
  w_promises w !! p = Some x -> is_outstanding x = true ->
  exists w',
    settle p o w = Ok tt w' /\
    (exists x', w_promises w' !! p = Some x' /\ p_settled x' = Some o) /\
    (exists y', w_promises w' !! S p = Some y' /\ p_origin y' = None /\
                p_settled y' = Some o) /\
    S (outstanding w') = outstanding w /\
    (w_mounted w = true ->
     counter w = Some (VNum (Z.of_nat (outstanding w))) /\
     counter w' = Some (VNum (Z.of_nat (outstanding w) - 1))) /\
    (w_mounted w = false ->
     counter w' = counter w /\ w_warnings w' = w_warnings w) /\
    (forall o', settle p o' w' = Ok tt w').
Proof.
  intros Hrun Hn Hp Hx.
  destruct (io_reach _ _ _ _ _ _ _ Hrun Hn) as (st & q & cond & Hf & Hwf & Hh).
  destruct w as [h0 fb cur sch m pr sto0 wn]; unfold outstanding in *;
    simpl in *; subst fb.
  fold (count_outstanding pr) in *.
  destruct (Hwf p x Hp Hx) as ((fn & v & ->) & y & Hy & Ho).
  destruct (settled_table p o pr _ y Hp Hx Hy Ho)
    as (Hcnt & _ & (x' & Hp' & Hxs & _) & (y' & Hd' & Hys & Hyo)).
  rewrite (useIO_settle fn v) by exact Hp.
  eexists. split; [reflexivity|]. cbn [w_promises w_warnings].
  fold (count_outstanding (mark (S p) o (mark p o pr))).
  split; [eauto|]. split; [eauto|]. split; [exact Hcnt|].
  split; [|split].
  - intros ->. specialize (Hh eq_refl). split.
    + now apply counter_holds.
    + apply counter_holds. now apply holds_decrement.
  - intros ->. split; reflexivity.
  - intros o'. apply (settle_not_outstanding p o' _ x'); [exact Hp'|].
    unfold is_outstanding. rewrite Hxs. now destruct (p_origin x').
Qed.

Lemma tracker_settlement_witness :
  exists w',
    settle 0 (Rejected (Thrown (VStr "failed")))
      (Build_world ∅ (io_fiber VNull [SetFn increment] true []) 4 [] true
                   [started 7%nat VNull 1%nat; derived] ∅ 0) = Ok tt w' /\
    counter w' = Some (VNum (1 - 1)) /\
    (exists y', w_promises w' !! 1%nat = Some y' /\ p_origin y' = None /\
                p_settled y' = Some (Rejected (Thrown (VStr "failed")))).
Proof.
  destruct (tracker_settlement 7%nat [] [] ∅ ∅ [Some false]
              (Build_world ∅ (io_fiber VNull [SetFn increment] true []) 4 [] true
                           [started 7%nat VNull 1%nat; derived] ∅ 0)
              0%nat (started 7%nat VNull 1%nat) (Rejected (Thrown (VStr "failed"))))
    as (w' & Hs & _ & Hy & _ & Hm & _).
  - reflexivity.
  - reflexivity.
  - reflexivity.
  - reflexivity.
  - exists w'. split; [exact Hs|]. split; [|exact Hy].
    exact (proj2 (Hm eq_refl)).
Defined.

(** C5 (as stated) fails for an operation that settles after the teardown:
    the tracker dispatches operation 7 on mount, the component is torn
    down, the promise then rejects; it is settled, and the counter still
    reads 1. *)
Lemma late_settlement_is_not_counted :
  exists w w' x,
    run io [Render (7%nat, []); Unmount] (fresh_world ∅ ∅)
    = Ok [Some false; None] w /\
    counter w = Some (VNum 1) /\
    settle 0 (Rejected (Thrown (VStr "failed"))) w = Ok tt w' /\
    w_promises w' !! 0%nat = Some x /\
    p_settled x = Some (Rejected (Thrown (VStr "failed"))) /\
    counter w' = Some (VNum 1).
Proof.
  eexists. eexists. eexists.
  split; [vm_compute; reflexivity|].
  split; [vm_compute; reflexivity|].
  split; [vm_compute; reflexivity|].
  split; [vm_compute; reflexivity|].
  split; vm_compute; reflexivity.
Qed.

(** C4: the boolean of the tracker is [false] for a [null] counter, [true]
    for the counter 0 and [false] for a counter of 1 or more; the mounting
    render returns it for [null] and a later render returns it for the
    counter with the queued updates applied. *)
Theorem readiness_of_counter :
  readiness VNull = false /\
  readiness (VNum 0) = true /\
  (forall n, 1 <= n -> readiness (VNum n) = false) /\
  (forall f c h sto,
      exists w, render (useIO f c) (fresh_world h sto) = Ok (readiness VNull) w) /\
  (forall f c st q cond h cur sch pr sto wn st' h',
      flush st q h = Ok st' h' ->
      exists w,
        render (useIO f c)
          (Build_world h (io_fiber st q true cond) cur sch true pr sto wn)
        = Ok (readiness st') w).
Proof.
  split; [reflexivity|]. split; [reflexivity|]. split; [|split].
  - intros n Hn. rewrite readiness_num. apply Z.eqb_neq. lia.
  - intros. rewrite useIO_mount. eauto.
  - intros * Hq. rewrite useIO_rerender, Hq. eauto.
Qed.

Lemma readiness_of_counter_witness :
  readiness (VNum 3) = false /\
  exists w,
    render (useIO 7%nat [])
      (Build_world ∅ (io_fiber (VNum 1) [SetFn decrement] true []) 4 [] true
                   [] ∅ 0)
    = Ok (readiness (VNum 0)) w.
Proof.
  split.
  - apply (proj1 (proj2 (proj2 readiness_of_counter)) 3). lia.
  - apply (proj2 (proj2 (proj2 (proj2 readiness_of_counter)))
             7%nat [] (VNum 1) [SetFn decrement] [] ∅ 4%nat [] [] ∅ 0%nat
             (VNum 0) ∅).
    reflexivity.
Defined.

(** ** Further properties of the links *)

Lemma link_set_state_cell l x st q h c sch pr sto wn rest :
  set l = StateSetter 0 ->
  link_set l x (Build_world h (StateSlot st q :: rest) c sch true pr sto wn) =
  Ok tt (Build_world h (StateSlot st (q ++ [x]) :: rest) c sch true pr sto wn).
Proof. intros Hs. unfold link_set. rewrite Hs. reflexivity. Qed.

Lemma forM_link_set l xs :
  set l = StateSetter 0 ->
  forall st q h c sch pr sto wn rest,
    forM_ xs (link_set l)
      (Build_world h (StateSlot st q :: rest) c sch true pr sto wn) =
    Ok tt (Build_world h (StateSlot st (q ++ xs) :: rest) c sch true pr sto wn).
Proof.
  intros Hs. induction xs as [|x xs IH]; intros; cbn [forM_].
  - now rewrite app_nil_r.
  - unfold bind. rewrite link_set_state_cell by exact Hs.
    rewrite IH, <- app_assoc. reflexivity.
Qed.

(** X1: the updates that a component queues on a [useLink] link between
    two renders are all applied at the next render, in call order, each
    function receiving the result of the update before it; the link then
    reads the final result, whatever [initialState] the render passes. *)
Theorem useLink_sets_apply_in_order init l xs st q h c sch pr sto wn :
  set l = StateSetter 0 ->
  (forM_ xs (link_set l) >>> render (useLink init))
    (Build_world h [StateSlot st q] c sch true pr sto wn) =
  match flush st (q ++ xs) h with
  | Ok v h' =>
      Ok (UseStateLink v (StateSetter 0))
         (Build_world h' [StateSlot v []] 1 [] true pr sto wn)
  | Throw e h' =>
      Throw e (Build_world h' [StateSlot st (q ++ xs)] 1 [] true pr sto wn)
  end.
Proof.
  intros Hs. unfold bind at 1. rewrite forM_link_set by exact Hs.
  apply useLink_rerender.
Qed.

Lemma useLink_sets_apply_in_order_witness :
  (forM_ [SetValue (VNum 10); SetFn increment; SetFn increment]
         (link_set (UseStateLink (VNum 0) (StateSetter 0))) >>>
   render (useLink (VNum 0)))
    (Build_world ∅ [StateSlot (VNum 0) []] 1 [] true [] ∅ 0) =
  Ok (UseStateLink (VNum 12) (StateSetter 0))
     (Build_world ∅ [StateSlot (VNum 12) []] 1 [] true [] ∅ 0).
Proof.
  apply (useLink_sets_apply_in_order (VNum 0)
           (UseStateLink (VNum 0) (StateSetter 0))
           [SetValue (VNum 10); SetFn increment; SetFn increment]
           (VNum 0) [] ∅ 1%nat [] [] ∅ 0%nat).
  reflexivity.
Defined.





(** X3: while its component is mounted, the [set] of a Safe Link does what
    the host's setter does: it queues exactly the given update on the state
    cell and changes nothing else. *)
Theorem safe_link_set_while_mounted init tr h sto outs w l x :
  run useSafeLink (Render init :: tr) (fresh_world h sto) = Ok outs w ->
  w_mounted w = true ->
  In (Some l) outs ->
  exists st q,
    w_fiber w = safe_link_fiber st q true /\
    link_set l x w = Ok tt (set_fiber (safe_link_fiber st (q ++ [x]) true) w).
Proof.
  intros Hrun Hm Hin. apply safe_link_reach in Hrun as ((st & q & Hf) & _ & Hl).
  exists st, q. rewrite Hm in Hf. split; [exact Hf|].
  unfold link_set. rewrite (Hl _ Hin).
  destruct w as [h0 f c sch m pr sto0 wn]; simpl in *; subst f m.
  reflexivity.
Qed.

Lemma safe_link_set_while_mounted_witness :
  let l := UseStateLink (VNum 0) (MountedGuard 1 (StateSetter 0)) in
  let w := Build_world ∅ (safe_link_fiber (VNum 0) [] true) 3 [] true [] ∅ 0 in
  exists st q,
    w_fiber w = safe_link_fiber st q true /\
    link_set l (SetValue (VNum 1)) w =
    Ok tt (set_fiber (safe_link_fiber st (q ++ [SetValue (VNum 1)]) true) w).
Proof.
  intros l w.
  apply (safe_link_set_while_mounted (VNum 0) [] ∅ ∅ [Some l] w l).
  - vm_compute. reflexivity.
  - reflexivity.
  - left. reflexivity.
Defined.

(** ** Further properties of the readiness tracker *)

(** X4: in every state that a mounted tracker reaches by renders, promise
    settlements and nothing else, the counter equals the number of
    operations that have been started and have not settled, and the next
    render succeeds and returns [true] exactly when that number is 0. *)
Theorem useIO_ready_iff_none_outstanding f c tr h sto outs w f' c' :
  run io (Render (f, c) :: tr) (fresh_world h sto) = Ok outs w ->
  no_calls tr = true ->
  w_mounted w = true ->
  counter w = Some (VNum (Z.of_nat (outstanding w))) /\
  exists w', render (useIO f' c') w = Ok (Nat.eqb (outstanding w) 0) w'.
Proof.
  intros Hrun Hn Hm.
  destruct (io_reach _ _ _ _ _ _ _ Hrun Hn) as (st & q & cond & Hf & _ & Hh).
  specialize (Hh Hm).
  destruct w as [h0 fb cur sch m pr sto0 wn]; unfold outstanding in *;
    simpl in *; subst fb m.
  split; [now apply counter_holds|].
  rewrite useIO_rerender, (Hh h0), readiness_num.
  replace (Z.eqb (Z.of_nat (List.length (List.filter is_outstanding pr))) 0)
    with (Nat.eqb (List.length (List.filter is_outstanding pr)) 0);
    [eauto|].
  destruct (List.length (List.filter is_outstanding pr)); reflexivity.
Qed.

Lemma useIO_ready_iff_none_outstanding_witness :
  let w := Build_world ∅ (io_fiber VNull [SetFn increment; SetFn decrement] true [])
             4 [] true
             [{| p_origin := Some 7%nat; p_settled := Some (Fulfilled VNull);
                 p_reactions := [] |};
              {| p_origin := None; p_settled := Some (Fulfilled VNull);
                 p_reactions := [] |}] ∅ 0 in
  counter w = Some (VNum 0) /\
  exists w', render (useIO 7%nat []) w = Ok true w'.
Proof.
  intros w.
  apply (useIO_ready_iff_none_outstanding 7%nat [] [Settle 0 (Fulfilled VNull)]
           ∅ ∅ [Some false; None] w 7%nat []).
  - vm_compute. reflexivity.
  - reflexivity.
  - reflexivity.
Defined.

Lemma io_deps_fiber st q m cond h cur sch pr sto wn :
  io_deps (Build_world h (io_fiber st q m cond) cur sch m pr sto wn) = cond.
Proof. reflexivity. Qed.



Lemma are_hook_inputs_equal_nil c : are_hook_inputs_equal c [] = true.
Proof. destruct c; reflexivity. Qed.

Lemma mark_length p o pr : List.length (mark p o pr) = List.length pr.
Proof. unfold mark. destruct (pr !! p); [apply length_insert | reflexivity]. Qed.

(** X6: with the default, empty dependency list at every render, the
    operation is executed once, when the component mounts: however many
    renders follow and however the promise settles, no second operation is
    started (the promise table keeps its two entries, the promise of the
    operation and the one [finally] returned). *)
Theorem useIO_default_runs_once f tr h sto outs w :
  run io (Render (f, []) :: tr) (fresh_world h sto) = Ok outs w ->
  no_calls tr = true ->
  default_condition tr = true ->
  List.length (w_promises w) = 2%nat /\ (outstanding w <= 1)%nat.
Proof.
  intros Hrun Hn Hd.
  assert (H : io_inv w /\ io_deps w = [] /\ List.length (w_promises w) = 2%nat).
  { revert Hrun Hn Hd.
    apply (run_mounted_ind io
             (fun tr _ w => no_calls tr = true -> default_condition tr = true ->
                io_inv w /\ io_deps w = [] /\ List.length (w_promises w) = 2%nat)).
    - intros o w1 Hs _ _. split; [|split].
      + apply (io_reach f [] [] h sto [o] w1); [|reflexivity].
        rewrite run_cons, Hs. reflexivity.
      + unfold step, bind, io in Hs. cbn [w_mounted fresh_world fst snd] in Hs.
        rewrite useIO_mount in Hs. injection Hs as _ <-. reflexivity.
      + unfold step, bind, io in Hs. cbn [w_mounted fresh_world fst snd] in Hs.
        rewrite useIO_mount in Hs. injection Hs as _ <-. reflexivity.
    - intros tr0 outs0 e w0 o w' IH Hs Hn Hd.
      rewrite no_calls_snoc in Hn. apply andb_true_iff in Hn as (Hn & He).
      apply negb_true_iff in He.
      unfold default_condition in Hd. rewrite forallb_app in Hd.
      apply andb_true_iff in Hd as (Hd & Hde). cbn [forallb] in Hde.
      rewrite andb_true_r in Hde.
      destruct (IH Hn Hd) as (Hinv & Hdeps & Hl).
      split; [eapply io_step; eauto|].
      destruct Hinv as (st & q & cond & Hf & Hwf & Hh).
      destruct w0 as [h0 fb cur sch m pr sto0 wn]; simpl in *; subst fb.
      rewrite io_deps_fiber in Hdeps. subst cond.
      destruct e as [[fn cn] | | p out | l k]; [| | |discriminate].
      + destruct cn; [|discriminate]. destruct m.
        * unfold step, bind, io in Hs. cbn [w_mounted fst snd] in Hs.
          rewrite useIO_rerender in Hs. cbn [are_hook_inputs_equal] in Hs.
          destruct (flush st q h0); [|discriminate].
          injection Hs as _ <-. auto.
        * rewrite step_render_unmounted in Hs by reflexivity.
          injection Hs as _ <-. auto.
      + unfold step, bind in Hs. destruct m.
        * rewrite useIO_unmount in Hs. injection Hs as _ <-. auto.
        * rewrite unmount_unmounted in Hs by reflexivity.
          injection Hs as _ <-. auto.
      + unfold step, bind in Hs.
        destruct (pr !! p) as [x|] eqn:Hp.
        2:{ rewrite settle_absent in Hs by exact Hp. injection Hs as _ <-. auto. }
        destruct (is_outstanding x) eqn:Hx.
        2:{ rewrite (settle_not_outstanding p out _ x) in Hs by assumption.
            injection Hs as _ <-. auto. }
        destruct (Hwf p x Hp Hx) as ((fn & v & ->) & _).
        rewrite (useIO_settle fn v) in Hs by exact Hp.
        injection Hs as _ <-. rewrite io_deps_fiber. split; [reflexivity|].
        cbn [w_promises]. now rewrite !mark_length. }
  destruct H as ((_ & _ & _ & _ & Hwf & _) & _ & Hl). split; [exact Hl|].
  unfold outstanding.
  destruct (w_promises w) as [|x [|y [|z pr]]]; try discriminate.
  simpl. destruct (is_outstanding y) eqn:Hy.
  - destruct (Hwf 1%nat y eq_refl Hy) as (_ & y' & [=] & _).
  - destruct (is_outstanding x); simpl; lia.
Qed.

Lemma useIO_default_runs_once_witness :
  exists outs w,
    run io [Render (7%nat, []); Render (8%nat, []);
            Settle 0 (Fulfilled VNull); Render (9%nat, [])]
        (fresh_world ∅ ∅) = Ok outs w /\
    List.length (w_promises w) = 2%nat /\ (outstanding w <= 1)%nat.
Proof.
  eexists. eexists.
  refine ((fun H => conj H
             (useIO_default_runs_once 7%nat
                [Render (8%nat, []); Settle 0 (Fulfilled VNull);
                 Render (9%nat, [])] ∅ ∅ _ _ H eq_refl eq_refl)) _).
  vm_compute. reflexivity.
Defined.

(** X7: a single operation: the mounting render returns [false], every
    render while the operation is pending returns [false], and every render
    after it settled, with either outcome, returns [true]. *)
Theorem useIO_single_operation f c o k1 k2 h sto :
  exists w,
    run io ([Render (f, c)] ++ repeat (Render (f, c)) k1 ++
            [Settle 0 o] ++ repeat (Render (f, c)) k2)
        (fresh_world h sto) =
    Ok ([Some false] ++ repeat (Some false) k1 ++ [None] ++
        repeat (Some true) k2) w.
Proof.
  destruct (io_at_mount f c h sto) as (w1 & E1 & A1).
  destruct (io_at_idle f c _ _ k1 _ A1) as (w2 & E2 & A2).
  destruct (io_at_settle f VNull 0 o _ _ _ _ A2 eq_refl) as (w3 & E3 & A3).
  destruct (io_at_idle f c _ _ k2 _ A3) as (w4 & E4 & A4).
  exists w4. cbn [app].
  rewrite run_cons, E1. cbv beta iota.
  rewrite run_app, E2. cbv beta iota. cbn [app].
  rewrite run_cons, E3. cbv beta iota.
  rewrite E4. reflexivity.
Qed.

(** ** Further properties of the bound links and of the persistence *)

Lemma bound_outputs safe s0 tr h sto outs w :
  run (bound safe) (Render s0 :: tr) (fresh_world h sto) = Ok outs w ->
  forall l, In (Some l) outs -> set l = bound_setter safe.
Proof.
  intros Hrun.
  assert (H : bound_inv safe s0 tr w /\
              forall l, In (Some l) outs -> set l = bound_setter safe);
    [|exact (proj2 H)].
  revert Hrun.
  apply (run_mounted_ind (bound safe)
           (fun tr outs w => bound_inv safe s0 tr w /\
              forall l, In (Some l) outs -> set l = bound_setter safe)).
  - intros o w1 Hs. split.
    + apply (bound_reach safe s0 [] h sto [o] w1). rewrite run_cons, Hs. reflexivity.
    + unfold step, bind in Hs. cbn [w_mounted fresh_world] in Hs.
      rewrite bound_mount in Hs. injection Hs as <- _.
      intros l [[= <-]|[]]. reflexivity.
  - intros tr0 outs0 e w0 o w' (Hinv & Houts) Hs.
    split; [eapply bound_step; eauto|].
    intros l [Hin | Ho]%in_snoc; [now apply Houts|]. subst o.
    destruct e as [s | | p out | l0 k]; unfold step in Hs.
    + destruct Hinv as (_ & Hf).
      destruct (w_mounted w0) eqn:Hm; [|discriminate].
      destruct (Hf eq_refl) as (st & q & Hfib).
      destruct w0 as [h0 f c sch m pr sto0 wn]; simpl in *; subst f m.
      unfold bind in Hs. rewrite bound_rerender in Hs.
      destruct (flush st q h0); [|discriminate].
      injection Hs as <- _. reflexivity.
    + apply bind_Ok_inv in Hs as (? & ? & _ & [=]).
    + apply bind_Ok_inv in Hs as (? & ? & _ & [=]).
    + apply bind_Ok_inv in Hs as (? & ? & _ & [=]).
Qed.

Lemma bound_link_set safe l x st q a h c sch pr sto wn :
  set l = bound_setter safe ->
  link_set l x (Build_world h (bound_fiber safe st q a) c sch true pr sto wn) =
  Ok tt (Build_world h (bound_fiber safe st (q ++ [x]) a) c sch true pr sto wn).
Proof. intros Hs. unfold link_set. rewrite Hs. destruct safe; reflexivity. Qed.

(** X8: a bound link (plain or safe) can be set locally: while the source
    value stays the one the link was synchronized with, a value that the
    caller [set] is what the link reads at the next render, and the
    synchronizing effect does not run. *)
Theorem bound_link_local_set safe s0 tr h sto outs w l x s :
  run (bound safe) (Render s0 :: tr) (fresh_world h sto) = Ok outs w ->
  w_mounted w = true ->
  In (Some l) outs ->
  counter w <> None ->
  source_value s = synced_value s0 tr ->
  exists w',
    (link_set l (SetValue x) >>> render (bound safe s)) w =
    Ok (UseStateLink x (bound_setter safe)) w' /\
    pending_sets w' = [].
Proof.
  intros Hrun Hm Hin Hc Hs.
  pose proof (bound_outputs _ _ _ _ _ _ _ Hrun l Hin) as Hset.
  apply bound_reach in Hrun as (_ & Hf). destruct (Hf Hm) as (st & q & Hfib).
  destruct w as [h0 f c sch m pr sto0 wn]; simpl in *; subst f m.
  assert (exists v h1, flush st q h0 = Ok v h1) as (v & h1 & Hq).
  { unfold counter in Hc. destruct safe; cbn in Hc;
      (destruct (flush st q h0) as [v h1|]; [eauto | congruence]). }
  unfold bind. rewrite bound_link_set by exact Hset.
  rewrite bound_rerender, flush_snoc, Hq. cbn [apply_setarg ret].
  rewrite bool_decide_eq_true_2 by exact Hs.
  eexists. split; [reflexivity|]. destruct safe; reflexivity.
Qed.

Lemma bound_link_local_set_witness :
  let l := UseStateLink (VNum 1) (MountedGuard 1 (StateSetter 0)) in
  let w := Build_world ∅ (bound_fiber true (VNum 1) [SetValue (VNum 1)] (VNum 1))
             4 [] true [] ∅ 0 in
  exists w',
    (link_set l (SetValue (VNum 9)) >>>
     render (bound true (SourceLink (UseStateLink (VNum 1) (StateSetter 3))))) w =
    Ok (UseStateLink (VNum 9) (bound_setter true)) w' /\
    pending_sets w' = [].
Proof.
  intros l w.
  apply (bound_link_local_set true (SourceValue (VNum 1)) [] ∅ ∅ [Some l] w l).
  - vm_compute. reflexivity.
  - reflexivity.
  - left. reflexivity.
  - vm_compute. discriminate.
  - reflexivity.
Defined.

(** *** Persistence *)

Lemma in_heap_inv {A} (m : M heap A) w a w' :
  in_heap m w = Ok a w' -> exists h', w' = set_heap h' w.
Proof.
  unfold in_heap. destruct (m (w_heap w)) as [a0 h'|]; [|discriminate].
  intros [= _ <-]. eauto.
Qed.

Lemma save_links_storage key links w w1 :
  save_links key links w = Ok tt w1 ->
  exists text, w_storage w1 = <[key := text]> (w_storage w) /\
               w_fiber w1 = w_fiber w /\ w_mounted w1 = w_mounted w.
Proof.
  unfold save_links. intros H.
  apply bind_Ok_inv in H as (d & w2 & Hg & H).
  apply bind_Ok_inv in H as (t & w3 & Ht & H).
  unfold Link_getValues in Hg.
  apply in_heap_inv in Hg as (h2 & ->). apply in_heap_inv in Ht as (h3 & ->).
  unfold setItem, modify in H. injection H as <-.
  destruct w. cbn. eauto.
Qed.

Lemma persist_rerenders props :
  forall key prev h c sch pr sto wn outs w,
    run persist (map Render props)
        (Build_world h (storage_fiber prev key true) c sch true pr sto wn)
    = Ok outs w ->
    exists c' sch',
      w = Build_world h
            (storage_fiber (List.last (map snd props) prev) key true)
            c' sch' true pr sto wn.
Proof.
  induction props as [|[k s] props IH]; intros key prev h c sch pr sto wn outs w.
  - cbn [map]. rewrite run_nil. intros [= _ <-]. simpl. eauto.
  - cbn [map]. rewrite run_cons. unfold step at 1, bind at 1, persist at 1.
    cbn [w_mounted fst snd]. rewrite useLocalStorage_rerender. cbn [ret].
    destruct (run _ _ _) as [os w2|] eqn:Hr; [|discriminate].
    intros [= _ <-]. apply IH in Hr as (c' & sch' & ->).
    exists c', sch'. now rewrite last_cons_default.
Qed.

(** X9: the key is the one of the mounting render.  Whatever keys and
    links the later renders pass, the storage is not touched until the
    teardown, and the teardown saves the links of the last render under the
    key of the first one, leaving every other key as it was. *)
Theorem teardown_saves_under_mount_key key0 links0 rest h sto outs w w1 :
  run persist (Render (key0, links0) :: map Render rest) (fresh_world h sto)
  = Ok outs w ->
  save_links key0 (List.last (map snd rest) links0) w = Ok tt w1 ->
  w_storage w = sto /\
  exists w' text,
    unmount w = Ok tt w' /\
    w_storage w' = <[key0 := text]> sto /\
    w_storage w' = w_storage w1.
Proof.
  intros Hrun Hsave.
  rewrite run_cons in Hrun. unfold step at 1, bind at 1, persist at 1 in Hrun.
  cbn [w_mounted fresh_world fst snd] in Hrun.
  destruct (render _ _) as [u w0|] eqn:Hm; [|discriminate].
  apply useLocalStorage_mount_ok in Hm as (h' & ->). cbn [ret] in Hrun.
  destruct (run _ _ _) as [os w2|] eqn:Hr; [|discriminate].
  injection Hrun as _ <-.
  apply persist_rerenders in Hr as (c' & sch' & ->).
  split; [reflexivity|].
  destruct (save_links_storage _ _ _ _ Hsave) as (text & Hsto & _).
  rewrite useLocalStorage_unmount, Hsave.
  eexists. exists text. split; [reflexivity|].
  destruct w1. cbn in *. auto.
Qed.

Lemma teardown_saves_under_mount_key_witness :
  exists outs w w1 w',
    run persist
        (Render ("first", [("a", UseStateLink (VNum 1) (StateSetter 5))]) ::
         map Render [("second", [("a", UseStateLink (VNum 2) (StateSetter 5))])])
        (fresh_world ∅ ∅) = Ok outs w /\
    save_links "first" [("a", UseStateLink (VNum 2) (StateSetter 5))] w = Ok tt w1 /\
    unmount w = Ok tt w' /\
    w_storage w' !! "second" = None /\
    w_storage w' !! "first" = Some ("{" ++ JSON.quote "a" ++ ":2}")%string.
Proof.
  pose (w := Build_world (<[fresh (dom (∅ : heap)) := OObject []]> ∅)
               (storage_fiber [("a", UseStateLink (VNum 2) (StateSetter 5))]
                              "first" true)
               2 [] true [] ∅ 0).
  destruct (save_links "first" [("a", UseStateLink (VNum 2) (StateSetter 5))] w)
    as [[] w1|e w1] eqn:Hs; [|vm_compute in Hs; discriminate].
  assert (Hrun : run persist
        (Render ("first", [("a", UseStateLink (VNum 1) (StateSetter 5))]) ::
         map Render [("second", [("a", UseStateLink (VNum 2) (StateSetter 5))])])
        (fresh_world ∅ ∅) = Ok [Some tt; Some tt] w) by (vm_compute; reflexivity).
  destruct (teardown_saves_under_mount_key "first" _
              [("second", [("a", UseStateLink (VNum 2) (StateSetter 5))])]
              ∅ ∅ _ w w1 Hrun Hs)
    as (_ & w' & text & Hu & _ & Hsto).
  exists [Some tt; Some tt], w, w1, w'.
  split; [exact Hrun|]. split; [exact Hs|]. split; [exact Hu|].
  rewrite Hsto. vm_compute in Hs. injection Hs as <-.
  split; vm_compute; reflexivity.
Defined.

Local Opaque useLocalStorage_effect.

Local Transparent useLocalStorage_effect.




(** *** Safe links, continued *)

(** X11: [update] on a Safe Link whose component is mounted follows the
    rule of [update] on a plain link: the host receives the clone-and-
    compute function, and at the next render the link reads the result of
    the update function when it is defined and the current value
    otherwise. *)
Theorem safe_link_update_while_mounted
  init x0 q h0 c sch pr sto wn link fun_ event x h d h1 r h2 :
  set link = MountedGuard 1 (StateSetter 0) ->
  flush x0 q h0 = Ok x h ->
  clone x h = Ok d h1 ->
  fun_ d event h1 = Ok r h2 ->
  (update link fun_ event >>> render (useSafeLink init))
    (Build_world h0 (safe_link_fiber x0 q true) c sch true pr sto wn) =
  Ok (UseStateLink (if is_undefined r then x else r)
                   (MountedGuard 1 (StateSetter 0)))
     (Build_world h2
        (safe_link_fiber (if is_undefined r then x else r) [] true)
        3 [] true pr sto wn).
Proof.
  intros Hs Hq Hc Hf.
  unfold update, link_set, bind at 1. rewrite Hs.
  change (call_setter (MountedGuard 1 (StateSetter 0))
            (SetFn (update_fn fun_ event))
            (Build_world h0 (safe_link_fiber x0 q true) c sch true pr sto wn))
    with (Ok tt (Build_world h0
                   (safe_link_fiber x0 (q ++ [SetFn (update_fn fun_ event)]) true)
                   c sch true pr sto wn)).
  cbv beta iota.
  rewrite useSafeLink_rerender, flush_snoc, Hq. cbn [apply_setarg].
  rewrite (update_fn_result _ _ _ _ _ _ _ _ Hc Hf). reflexivity.
Qed.

Lemma safe_link_update_while_mounted_witness :
  (update (UseStateLink (VNum 1) (MountedGuard 1 (StateSetter 0)))
          (fun draft _ => js_add draft (VNum 4)) VUndefined >>>
   render (useSafeLink (VNum 0)))
    (Build_world ∅ (safe_link_fiber (VNum 1) [] true) 3 [] true [] ∅ 0) =
  Ok (UseStateLink (VNum 5) (MountedGuard 1 (StateSetter 0)))
     (Build_world ∅ (safe_link_fiber (VNum 5) [] true) 3 [] true [] ∅ 0).
Proof.
  apply (safe_link_update_while_mounted (VNum 0) (VNum 1) [] ∅ 3%nat [] [] ∅ 0%nat
           (UseStateLink (VNum 1) (MountedGuard 1 (StateSetter 0)))
           (fun draft _ => js_add draft (VNum 4)) VUndefined
           (VNum 1) ∅ (VNum 1) ∅ (VNum 5) ∅);
    reflexivity.
Defined.

Lemma useSafeBoundLink_mount s h sto :
  render (useSafeBoundLink s) (fresh_world h sto) =
  Ok (UseStateLink (source_value s) (MountedGuard 1 (StateSetter 0)))
     (Build_world h
        (safe_bound_fiber (source_value s) [SetValue (source_value s)] true
                          (source_value s))
        4 [] true [] sto 0).
Proof. reflexivity. Qed.

Lemma useSafeBoundLink_rerender s st q a h c sch pr sto wn :
  render (useSafeBoundLink s)
    (Build_world h (safe_bound_fiber st q true a) c sch true pr sto wn) =
  match flush st q h with
  | Ok st' h' =>
      Ok (UseStateLink st' (MountedGuard 1 (StateSetter 0)))
         (Build_world h'
            (safe_bound_fiber st'
               (if bool_decide (source_value s = a) then []
                else [SetValue (source_value s)])
               true (source_value s))
            4 [] true pr sto wn)
  | Throw e h' =>
      Throw e (Build_world h' (safe_bound_fiber st q true a) 1 [] true pr sto wn)
  end.
Proof. exact (bound_rerender true s st q a h c sch pr sto wn). Qed.

Lemma useSafeBoundLink_unmount st q a h c sch pr sto wn :
  unmount (Build_world h (safe_bound_fiber st q true a) c sch true pr sto wn) =
  Ok tt (Build_world h (safe_bound_fiber st q false a) c sch false pr sto wn).
Proof. reflexivity. Qed.

Lemma safe_bound_step outs e w o w' :
  safe_bound_inv outs w -> step useSafeBoundLink e w = Ok o w' ->
  safe_bound_inv (outs ++ [o]) w'.
Proof.
  unfold safe_bound_inv. intros ((st & q & a & Hf) & Hp & Hl).
  destruct w as [h f c sch m pr sto wn]; simpl in *; subst f pr.
  assert (Hnone : forall l, In (Some l) (outs ++ [None]) ->
                            set l = MountedGuard 1 (StateSetter 0)).
  { intros l [Hin | [=]]%in_snoc; auto. }
  destruct e as [s | | p out | l k].
  - destruct m.
    + unfold step, bind. cbn [w_mounted]. rewrite useSafeBoundLink_rerender.
      destruct (flush st q h) as [st' h'|]; [|discriminate].
      intros [= <- <-]. simpl. split; [eauto|]. split; [reflexivity|].
      intros l [Hin | [= ->]]%in_snoc; auto.
    + rewrite step_render_unmounted by reflexivity.
      intros [= <- <-]. simpl. eauto 6.
  - unfold step, bind. destruct m.
    + rewrite useSafeBoundLink_unmount. intros [= <- <-]. simpl. eauto 6.
    + rewrite unmount_unmounted by reflexivity. intros [= <- <-]. simpl. eauto 6.
  - rewrite step_settle_no_promises by reflexivity.
    intros [= <- <-]. simpl. eauto 6.
  - intros [-> H]%step_call_inv.
    apply do_call_effect in H as [-> | [(_ & ->) | (Hm & cell & st0 & q0 & x & Hc & ->)]];
      simpl in *; [eauto 6 | eauto 6 |].
    subst m. destruct cell as [|[|[|[|cell]]]]; try discriminate.
    simpl in *. injection Hc as <- <-.
    split; [|auto]. exists st, (q ++ [x]), a. reflexivity.
Qed.

Lemma safe_bound_reach h sto s0 tr outs w :
  run useSafeBoundLink (Render s0 :: tr) (fresh_world h sto) = Ok outs w ->
  safe_bound_inv outs w.
Proof.
  apply (run_mounted_ind useSafeBoundLink (fun _ outs w => safe_bound_inv outs w)).
  - unfold step, bind. cbn [w_mounted fresh_world]. rewrite useSafeBoundLink_mount.
    intros o w1 [= <- <-]. unfold safe_bound_inv. simpl.
    split; [eauto|]. split; [reflexivity|]. intros l [[= <-]|[]]. reflexivity.
  - intros. eapply safe_bound_step; eauto.
Qed.

(** X12: a Safe Bound Link is safe in the same way as a Safe Link: after
    the teardown of its component, [set] and [update] on any link the
    component returned leave the world as it was. *)
Theorem safe_bound_link_after_teardown h sto s0 tr outs w link :
  run useSafeBoundLink (Render s0 :: tr) (fresh_world h sto) = Ok outs w ->
  w_mounted w = false ->
  In (Some link) outs ->
  (forall x, link_set link x w = Ok tt w) /\
  (forall fun_ event, update link fun_ event w = Ok tt w).
Proof.
  intros Hrun Hm Hin.
  apply safe_bound_reach in Hrun as ((st & q & a & Hf) & _ & Hl).
  rewrite Hm in Hf.
  assert (forall x, link_set link x w = Ok tt w) as H.
  { intros x. unfold link_set. rewrite (Hl _ Hin). simpl.
    unfold bind, read_ref. rewrite Hf. reflexivity. }
  split; [exact H|]. intros fun_ event. apply H.
Qed.

Lemma safe_bound_link_after_teardown_witness :
  let l := UseStateLink (VNum 1) (MountedGuard 1 (StateSetter 0)) in
  let w := Build_world ∅ (safe_bound_fiber (VNum 1) [SetValue (VNum 1)] false (VNum 1))
             4 [] false [] ∅ 0 in
  link_set l (SetValue (VNum 2)) w = Ok tt w.
Proof.
  intros l w.
  apply (proj1 (safe_bound_link_after_teardown ∅ ∅ (SourceValue (VNum 1))
                  [Unmount] [Some l; None] w l
                  ltac:(vm_compute; reflexivity) eq_refl
                  (or_introl eq_refl))).
Defined.

